(** * PyBloomFilter: a shallow embedding of [src/bloom_filter.py]

    The development follows the Python module top to bottom:

    - [Py]: the fragment of the Python runtime the module relies on
      (exceptions, dynamically typed values, [int]/[float] arithmetic on
      IEEE-754 binary64, slicing, [int.to_bytes], the [bitarray] container);
    - [Runtime]: the library functions the module imports and that live
      outside the repository ([hash], [xxh3_64_intdigest], [math.log],
      [math.exp], [float.__pow__]);
    - [BloomFilter]: the class itself, method by method, over a heap of
      instances so that object identity ([id(self) == id(other)]) and
      in-place mutation are visible;
    - the theorems. *)

From Stdlib Require Import ZArith Zpow_facts List Bool Lia Floats.SpecFloat.
From Stdlib Require Strings.Byte.
From stdpp Require Import base gmap list strings.

Local Open Scope Z_scope.

(* ===================================================================== *)
(** * The Python runtime fragment                                         *)
(* ===================================================================== *)

Module Py.

(** The exceptions the module can meet: built-in ones and
    [decimal.InvalidOperation].  [Dangling] is not a Python exception: it
    is what a method of the model answers when it is handed an address
    that holds no object, which no Python program can do. *)
Inductive exn :=
| TypeError
| ValueError
| OverflowError
| ZeroDivisionError
| IndexError
| InvalidOperation
| Dangling.

Inductive result (A : Type) :=
| Ok (a : A)
| Err (e : exn).
Arguments Ok {A} a.
Arguments Err {A} e.

#[global] Instance result_ret : MRet result := @Ok.
#[global] Instance result_bind : MBind result :=
  fun A B f r => match r with Ok a => f a | Err e => Err e end.
#[global] Instance result_fmap : FMap result :=
  fun A B f r => match r with Ok a => Ok (f a) | Err e => Err e end.

#[global] Instance exn_eq_dec : EqDecision exn.
Proof. solve_decision. Defined.

(** ** binary64 *)

Abbreviation float := spec_float.
Abbreviation prec := 53.
Abbreviation emax := 1024.

Definition fmul : float -> float -> float := SFmul prec emax.
Definition fsub : float -> float -> float := SFsub prec emax.
Definition fle : float -> float -> bool := SFleb.
Definition fge (x y : float) : bool := SFleb y x.

(** [float(z)] for an [int] [z], rounded to nearest even.  [int.__float__]
    raises [OverflowError] when the rounded value does not fit. *)
Definition float_of_int (z : Z) : result float :=
  match binary_normalize prec emax z 0 false with
  | S754_infinity _ => Err OverflowError
  | f => Ok f
  end.

(** [x / y] on floats: Python raises on a zero divisor instead of
    answering an infinity or a NaN. *)
Definition fdiv (x y : float) : result float :=
  match y with
  | S754_zero _ => Err ZeroDivisionError
  | _ => Ok (SFdiv prec emax x y)
  end.

(** [a / b] on ints ([int.__truediv__]): the correctly rounded quotient.
    The division core of the binary64 specification takes mantissas of any
    size, so it is run on the two integers themselves. *)
Definition int_true_div (a b : Z) : result float :=
  match b, a with
  | Z0, _ => Err ZeroDivisionError
  | _, Z0 => Ok (S754_zero (b <? 0))
  | _, _ =>
      let '(q, e, l) := SFdiv_core_binary prec emax (Z.abs a) 0 (Z.abs b) 0 in
      match binary_round_aux prec emax (xorb (a <? 0) (b <? 0)) q e l with
      | S754_infinity _ => Err OverflowError
      | f => Ok f
      end
  end.

(** The exact integer value [num / 2^den_exp] of a finite float, as a
    numerator and the exponent of its power-of-two denominator. *)
Definition float_ratio (s : bool) (m : positive) (e : Z) : Z * Z :=
  let n := if s then Z.neg m else Z.pos m in
  if 0 <=? e then (n * 2 ^ e, 0) else (n, - e).

(** [math.ceil(x)] on a float: an exact [int], or an exception on
    infinities and NaN. *)
Definition ceil (x : float) : result Z :=
  match x with
  | S754_zero _ => Ok 0
  | S754_infinity _ => Err OverflowError
  | S754_nan => Err ValueError
  | S754_finite s m e =>
      let '(n, k) := float_ratio s m e in
      Ok (- ((- n) / 2 ^ k))
  end.

(** [round(x)] on a float with no [ndigits]: nearest [int], ties to even. *)
Definition round (x : float) : result Z :=
  match x with
  | S754_zero _ => Ok 0
  | S754_infinity _ => Err OverflowError
  | S754_nan => Err ValueError
  | S754_finite s m e =>
      let '(n, k) := float_ratio s m e in
      let d := 2 ^ k in
      let q := n / d in
      let r := n mod d in
      Ok (match 2 * r ?= d with
          | Lt => q
          | Gt => q + 1
          | Eq => if Z.even q then q else q + 1
          end)
  end.

(** ** Values *)

Definition addr := nat.

(** [decimal.Decimal]: a finite [(-1)^sign * coefficient * 10^exponent],
    an infinity, or a NaN, quiet or signalling. *)
Inductive decimal :=
| DecFinite (sign : bool) (coefficient : N) (exponent : Z)
| DecInfinity (sign : bool)
| DecNaN (signaling : bool).

(** The values that reach the module in its tests and in the claims.
    [PyFraction] is [fractions.Fraction] and [PyDecimal] is
    [decimal.Decimal], the two [numbers.Number]s of the standard library
    that are neither [int], [float] nor [complex]; [PyObj] is a reference
    to an instance of the class. *)
#[local] Unset Elimination Schemes.
Inductive value :=
| PyNone
| PyBool (b : bool)
| PyInt (z : Z)
| PyFloat (f : float)
| PyComplex (re im : float)
| PyFraction (num : Z) (den : positive)
| PyDecimal (d : decimal)
| PyStr (s : string)
| PyList (l : list value)
| PyObj (a : addr).
#[local] Set Elimination Schemes.

(** [isinstance(v, int)]: [bool] is a subclass of [int]. *)
Definition isinstance_int (v : value) : bool :=
  match v with PyBool _ | PyInt _ => true | _ => false end.

(** [isinstance(v, numbers.Number)]. *)
Definition isinstance_Number (v : value) : bool :=
  match v with
  | PyBool _ | PyInt _ | PyFloat _ | PyComplex _ _ | PyFraction _ _
  | PyDecimal _ => true
  | _ => false
  end.

Definition isinstance_complex (v : value) : bool :=
  match v with PyComplex _ _ => true | _ => false end.

(** The [int] behind an instance of [int]. *)
Definition int_value (v : value) : Z :=
  match v with
  | PyBool b => if b then 1 else 0
  | PyInt z => z
  | _ => 0
  end.

(** The exact order of a finite decimal and an [int]. *)
Definition decimal_compare_int (sign : bool) (coefficient : N) (exponent z : Z)
  : comparison :=
  let c := if sign then - Z.of_N coefficient else Z.of_N coefficient in
  if 0 <=? exponent then c * 10 ^ exponent ?= z
  else c ?= z * 10 ^ (- exponent).

(** [v <= z] and [v >= z] for a value [v] and a small [int] literal [z]
    (the module compares with 0 and 1 only, which binary64 holds exactly).
    Comparisons with a float NaN are false; ordering a decimal NaN signals
    [InvalidOperation], which the default context of [decimal] raises;
    [complex] and the values that are no numbers do not order with an
    [int]. *)
Definition le_int (v : value) (z : Z) : result bool :=
  match v with
  | PyBool _ | PyInt _ => Ok (int_value v <=? z)
  | PyFloat f => Ok (fle f (binary_normalize prec emax z 0 false))
  | PyFraction n d => Ok (n <=? z * Z.pos d)
  | PyDecimal (DecFinite s c e) =>
      Ok (match decimal_compare_int s c e z with Gt => false | _ => true end)
  | PyDecimal (DecInfinity s) => Ok s
  | PyDecimal (DecNaN _) => Err InvalidOperation
  | _ => Err TypeError
  end.

Definition ge_int (v : value) (z : Z) : result bool :=
  match v with
  | PyBool _ | PyInt _ => Ok (z <=? int_value v)
  | PyFloat f => Ok (fge f (binary_normalize prec emax z 0 false))
  | PyFraction n d => Ok (z * Z.pos d <=? n)
  | PyDecimal (DecFinite s c e) =>
      Ok (match decimal_compare_int s c e z with Lt => false | _ => true end)
  | PyDecimal (DecInfinity s) => Ok (negb s)
  | PyDecimal (DecNaN _) => Err InvalidOperation
  | _ => Err TypeError
  end.

(** [float(d)] for a decimal ([Decimal.__float__]): the binary64 nearest
    to its value, an infinity when that is out of range; a signalling NaN
    does not convert. *)
Definition float_of_decimal (d : decimal) : result float :=
  match d with
  | DecNaN signaling => if signaling then Err ValueError else Ok S754_nan
  | DecInfinity s => Ok (S754_infinity s)
  | DecFinite s c e =>
      match c with
      | N0 => Ok (S754_zero s)
      | Npos c =>
          if 0 <=? e then Ok (binary_round prec emax s (c * Z.to_pos (10 ^ e)) 0)
          else
            let '(q, e', l) :=
              SFdiv_core_binary prec emax (Z.pos c) 0 (10 ^ (- e)) 0 in
            Ok (binary_round_aux prec emax s q e' l)
      end
  end.

(** [float(v)] for a real number: [Fraction.__float__] is the true
    division of numerator by denominator. *)
Definition to_float (v : value) : result float :=
  match v with
  | PyBool _ | PyInt _ => float_of_int (int_value v)
  | PyFloat f => Ok f
  | PyFraction n d => int_true_div n (Z.pos d)
  | PyDecimal d => float_of_decimal d
  | _ => Err TypeError
  end.

(** ** Sequences *)

(** [l[:k]]: a slice never raises; a bound past the end is clipped and a
    negative bound counts from the end. *)
Definition slice_to {A} (l : list A) (k : Z) : list A :=
  if k <? 0 then take (Z.to_nat (Z.of_nat (length l) + k)) l
  else take (Z.to_nat k) l.

(** [a % b] on ints: the sign follows the divisor, as [Z.modulo] does. *)
Definition mod_ (a b : Z) : result Z :=
  if b =? 0 then Err ZeroDivisionError else Ok (a mod b).

(** [z.to_bytes(len, byteorder='big', signed=True)]. *)
Definition byte_of_Z (z : Z) : Byte.byte :=
  default Byte.x00 (Byte.of_N (Z.to_N (z mod 256))).

Fixpoint be_bytes (len : nat) (z : Z) : list Byte.byte :=
  match len with
  | O => []
  | S n => be_bytes n (z / 256) ++ [byte_of_Z z]
  end.

#[global] Arguments be_bytes : simpl never.

Definition to_bytes (z : Z) (len : nat) : result (list Byte.byte) :=
  let half := 2 ^ (8 * Z.of_nat len - 1) in
  if (- half <=? z) && (z <? half) then Ok (be_bytes len z)
  else Err OverflowError.

(** ** bitarray *)

(** [bitarray(length)]: [length] zero bits (bitarray 3.x; the allocation
    itself is assumed to succeed).  A length that does not fit an index
    raises [OverflowError], a negative one [ValueError]. *)
Definition bitarray (length : Z) : result (list bool) :=
  if (length <? - 2 ^ 63) || (2 ^ 63 <=? length) then Err OverflowError
  else if length <? 0 then Err ValueError
  else Ok (replicate (Z.to_nat length) false).

Definition len {A} (l : list A) : Z := Z.of_nat (length l).

(** [a[i]] for an index the caller has already reduced modulo [len(a)]. *)
Definition getitem (a : list bool) (i : Z) : result bool :=
  if i <? 0 then Err IndexError
  else match a !! Z.to_nat i with
       | Some b => Ok b
       | None => Err IndexError
       end.

(** [a[i] = b]. *)
Definition setitem (a : list bool) (i : Z) (b : bool) : result (list bool) :=
  if (i <? 0) || (len a <=? i) then Err IndexError
  else Ok (<[Z.to_nat i := b]> a).

(** [a |= b]: in-place element-wise OR; operands of different lengths are
    refused. *)
Definition ior (a b : list bool) : result (list bool) :=
  if len a =? len b then Ok (zip_with orb a b) else Err ValueError.

End Py.
Import Py.

(* ===================================================================== *)
(** * What the module imports from outside the repository                 *)
(* ===================================================================== *)

(** The built-in [hash], xxhash's [xxh3_64_intdigest(data, seed)] and the
    C library behind [math.log], [math.exp] and [float ** float] are not
    part of the repository.  They are taken as they come: any functions of
    these types, with the one guarantee Python gives on [hash], that its
    result fits a machine word. *)
Class Runtime := {
  hash : value -> result Z;
  hash_range : forall v z, hash v = Ok z -> - 2 ^ 63 <= z < 2 ^ 63;
  xxh3_64_intdigest : list Byte.byte -> Z -> Z;
  math_log : float -> result float;
  math_exp : float -> result float;
  float_pow : float -> float -> result float;
}.

(* ===================================================================== *)
(** * class BloomFilter                                                   *)
(* ===================================================================== *)

Record BloomFilter := MkBloomFilter {
  _expected_insertions : value;
  _fp_rate : value;
  _bit_array : list bool;
  (** each hash function is [partial(xxh3_64_intdigest, seed=i)], kept as
      its seed [i] *)
  _hash_functions : list Z;
}.

Abbreviation heap := (gmap addr BloomFilter).

(** A method: it reads and mutates the heap of instances and returns or
    raises.  What was mutated before an exception stays mutated. *)
Definition M (A : Type) : Type := heap -> result A * heap.

(** [_hash_fn_pool = [partial(xxh3_64_intdigest, seed=i) for i in range(30)]] *)
Definition _hash_fn_pool : list Z := seqZ 0 30.

Section Methods.
Context `{RT : Runtime}.

(** [math.log(v)] on a number, [x ** k] on a float and an int. *)
Definition log (v : value) : result float :=
  x ← to_float v; math_log x.

Definition pow (x : float) (k : Z) : result float :=
  y ← float_of_int k; float_pow x y.

(** The five argument checks that open [__init__]. *)
Definition check_arguments (expected_insertions fp_rate : value) : result unit :=
  if negb (isinstance_int expected_insertions) then Err TypeError
  else
    not_positive ← le_int expected_insertions 0;
    if (not_positive : bool) then Err ValueError
    else if negb (isinstance_Number fp_rate) then Err TypeError
    else if isinstance_complex fp_rate then Err TypeError
    else
      too_low ← le_int fp_rate 0;
      outside ← (if (too_low : bool) then Ok true else ge_int fp_rate 1);
      if (outside : bool) then Err ValueError
      else Ok tt.

(** [length = ceil(-n * log(p) / log(2) ** 2); return bitarray(length)] *)
Definition _make_bit_array (_expected_insertions _fp_rate : value)
  : result (list bool) :=
  let n := int_value _expected_insertions in
  let p := _fp_rate in
  log_p ← log p;
  minus_n ← float_of_int (- n);
  log_2 ← log (PyInt 2);
  log_2_sq ← pow log_2 2;
  quotient ← fdiv (fmul minus_n log_p) log_2_sq;
  length ← ceil quotient;
  bitarray length.

(** [k = round((m / n) * log(2))] *)
Definition derived_k (_expected_insertions : value) (_bit_array : list bool)
  : result Z :=
  let n := int_value _expected_insertions in
  let m := len _bit_array in
  m_over_n ← int_true_div m n;
  log_2 ← log (PyInt 2);
  round (fmul m_over_n log_2).

(** [return [fn for fn in BloomFilter._hash_fn_pool[:k]]] *)
Definition _pick_hash_functions (_expected_insertions : value)
    (_bit_array : list bool) : result (list Z) :=
  k ← derived_k _expected_insertions _bit_array;
  Ok (slice_to _hash_fn_pool k).

(** The body of [__init__]: the fields of the new instance. *)
Definition init_fields (expected_insertions fp_rate : value)
  : result BloomFilter :=
  _ ← check_arguments expected_insertions fp_rate;
  bit_array ← _make_bit_array expected_insertions fp_rate;
  hash_functions ← _pick_hash_functions expected_insertions bit_array;
  Ok (MkBloomFilter expected_insertions fp_rate bit_array hash_functions).

(** [BloomFilter(expected_insertions, fp_rate)]: a new instance at a fresh
    address, or the exception of [__init__] and no instance. *)
Definition __init__ (expected_insertions fp_rate : value) : M addr :=
  fun h =>
    match init_fields expected_insertions fp_rate with
    | Ok self => let a := fresh (dom h) in (Ok a, <[a := self]> h)
    | Err e => (Err e, h)
    end.

(** [expected_fpp]: [(1 - exp(-(k * n) / m)) ** k] *)
Definition expected_fpp_of (self : BloomFilter) : result float :=
  let k := len (_hash_functions self) in
  let n := int_value (_expected_insertions self) in
  let m := len (_bit_array self) in
  exponent ← int_true_div (- (k * n)) m;
  expected_zero_density ← math_exp exponent;
  one ← float_of_int 1;
  pow (fsub one expected_zero_density) k.

(** [hash(item).to_bytes(64, byteorder='big', signed=True)] *)
Definition byte_signature (item : value) : result (list Byte.byte) :=
  h ← hash item; to_bytes h 64.

(** [hasher(byte_signature) % len(self._bit_array)] *)
Definition bucket (bit_array : list bool) (signature : list Byte.byte)
    (hasher : Z) : result Z :=
  mod_ (xxh3_64_intdigest signature hasher) (len bit_array).

(** The loop of [may_contain]. *)
Fixpoint may_contain_loop (bit_array : list bool)
    (signature : list Byte.byte) (hashers : list Z) : result bool :=
  match hashers with
  | [] => Ok true
  | hasher :: rest =>
      b ← bucket bit_array signature hasher;
      bit ← getitem bit_array b;
      if (bit : bool) then may_contain_loop bit_array signature rest else Ok false
  end.

Definition may_contain_of (self : BloomFilter) (item : value) : result bool :=
  signature ← byte_signature item;
  may_contain_loop (_bit_array self) signature (_hash_functions self).

(** The loop of [put]: the bit array as the loop leaves it, and whether
    the loop ran to its end. *)
Fixpoint put_loop (signature : list Byte.byte) (hashers : list Z)
    (bit_array : list bool) : result unit * list bool :=
  match hashers with
  | [] => (Ok tt, bit_array)
  | hasher :: rest =>
      match b ← bucket bit_array signature hasher; setitem bit_array b true with
      | Ok bit_array' => put_loop signature rest bit_array'
      | Err e => (Err e, bit_array)
      end
  end.

Definition set_bit_array (self : BloomFilter) (bit_array : list bool)
  : BloomFilter :=
  MkBloomFilter (_expected_insertions self) (_fp_rate self) bit_array
    (_hash_functions self).

(** [isinstance(other, BloomFilter)] *)
Definition isinstance_BloomFilter (h : heap) (other : value)
  : option (addr * BloomFilter) :=
  match other with
  | PyObj o => g ← h !! o; Some (o, g)
  | _ => None
  end.

Definition _is_compatible (h : heap) (self_id : addr) (self : BloomFilter)
    (other : value) : bool :=
  match isinstance_BloomFilter h other with
  | None => false
  | Some (other_id, other) =>
      if decide (self_id = other_id) then false
      else if negb (len (_hash_functions self) =? len (_hash_functions other))
      then false
      else if negb (len (_bit_array self) =? len (_bit_array other))
      then false
      else true
  end.

(** ** The methods on the heap *)

Definition expected_fpp (self : addr) : M float :=
  fun h =>
    match h !! self with
    | Some f => (expected_fpp_of f, h)
    | None => (Err Dangling, h)
    end.

Definition may_contain (self : addr) (item : value) : M bool :=
  fun h =>
    match h !! self with
    | Some f => (may_contain_of f item, h)
    | None => (Err Dangling, h)
    end.

Definition put (self : addr) (item : value) : M unit :=
  fun h =>
    match h !! self with
    | Some f =>
        match byte_signature item with
        | Ok signature =>
            let '(r, bit_array) :=
              put_loop signature (_hash_functions f) (_bit_array f) in
            (r, <[self := set_bit_array f bit_array]> h)
        | Err e => (Err e, h)
        end
    | None => (Err Dangling, h)
    end.

Definition put_all (self : addr) (other : value) : M unit :=
  fun h =>
    match h !! self with
    | Some f =>
        if _is_compatible h self f other then
          match isinstance_BloomFilter h other with
          | Some (_, g) =>
              match ior (_bit_array f) (_bit_array g) with
              | Ok bit_array => (Ok tt, <[self := set_bit_array f bit_array]> h)
              | Err e => (Err e, h)
              end
          | None => (Err TypeError, h)
          end
        else (Err ValueError, h)
    | None => (Err Dangling, h)
    end.

Definition __contains__ (self : addr) (item : value) : M bool :=
  may_contain self item.

(** ** Histories *)

(** One call of a mutating entry point of the class, whatever it returns
    or raises. *)
Inductive step : heap -> heap -> Prop :=
| step_init n p r h h' : __init__ n p h = (r, h') -> step h h'
| step_put self item r h h' : put self item h = (r, h') -> step h h'
| step_put_all self other r h h' : put_all self other h = (r, h') -> step h h'.

(** The heaps a program can build, starting with no instance. *)
Definition reachable (h : heap) : Prop := rtc step ∅ h.

(** A run of [put] calls. *)
Fixpoint put_each (calls : list (addr * value)) (h : heap) : heap :=
  match calls with
  | [] => h
  | (self, item) :: rest => put_each rest (put self item h).2
  end.

End Methods.

(* ===================================================================== *)
(** * One concrete runtime: CPython on a 64-bit machine                   *)
(* ===================================================================== *)

(** The worked examples need a runtime to run on.  [CPython] below hashes
    numbers as the language reference prescribes ("Hashing of numeric
    types": reduction modulo [2^61 - 1]); it answers [math.log],
    [math.exp] and [**] from tables holding the binary64 values CPython
    returns at the arguments the examples use, and raises elsewhere; string
    hashes are those of one interpreter process (they are keyed per
    process); a 64-bit FNV-1a stands in for [xxh3_64_intdigest]. *)
Module CPython.

Definition P : Z := 2 ^ 61 - 1.

Definition not_minus_one (h : Z) : Z := if h =? -1 then -2 else h.

Definition hash_int (z : Z) : Z :=
  not_minus_one (Z.sgn z * (Z.abs z mod P)).

Definition hash_float (f : float) : Z :=
  match f with
  | S754_zero _ | S754_nan => 0
  | S754_infinity s => if s then -314159 else 314159
  | S754_finite s m e =>
      not_minus_one
        ((if s then -1 else 1) * ((Z.pos m mod P) * 2 ^ (e mod 61) mod P))
  end.

Definition hash_fraction (num : Z) (den : positive) : Z :=
  if Z.pos den mod P =? 0 then Z.sgn num * 314159
  else
    not_minus_one
      (Z.sgn num *
         ((Z.abs num mod P) * Zpow_mod (Z.pos den) (P - 2) P mod P)).

(** [Decimal.__hash__]: the hash of the equal rational; a quiet NaN hashes
    by identity, taken as 0 here, and a signalling NaN is unhashable. *)
Definition hash_decimal (d : decimal) : result Z :=
  match d with
  | DecNaN signaling => if signaling then Err TypeError else Ok 0
  | DecInfinity s => Ok (if s then -314159 else 314159)
  | DecFinite s c e =>
      let exp_hash :=
        if 0 <=? e then Zpow_mod 10 e P
        else Zpow_mod (Zpow_mod 10 (P - 2) P) (- e) P in
      Ok (not_minus_one
            ((if s then -1 else 1) * (Z.of_N c * exp_hash mod P)))
  end.

Definition wrap64 (z : Z) : Z := (z + 2 ^ 63) mod 2 ^ 64 - 2 ^ 63.

Definition hash_str (s : string) : Z :=
  if String.eqb s "1" then -3253224058849956942
  else if String.eqb s "hello" then -7293728527455442811
  else if String.eqb s "world" then -2281572781517428418
  else wrap64 (Z.of_nat (String.length s)).

Definition hash (v : value) : result Z :=
  match v with
  | PyNone => Ok 0
  | PyBool _ | PyInt _ => Ok (hash_int (int_value v))
  | PyFloat f => Ok (hash_float f)
  | PyComplex re im =>
      Ok (not_minus_one (wrap64 (hash_float re + 1000003 * hash_float im)))
  | PyFraction n d => Ok (hash_fraction n d)
  | PyDecimal d => hash_decimal d
  | PyStr s => Ok (hash_str s)
  | PyList _ => Err TypeError
  | PyObj a => Ok (wrap64 (Z.of_nat a))
  end.

Definition fnv1a_64 (data : list Byte.byte) (seed : Z) : Z :=
  fold_left
    (fun acc b =>
       (Z.lxor acc (Z.of_N (Byte.to_N b)) * 0x100000001b3) mod 2 ^ 64)
    data (Z.lxor 0xcbf29ce484222325 seed).

Definition lookup_float (table : list (float * float)) (x : float)
  : result float :=
  match List.find (fun kv => SFeqb kv.1 x) table with
  | Some kv => Ok kv.2
  | None => Err ValueError
  end.

Definition log_table : list (float * float) :=
  [ (S754_finite false 0x10000000000000 (-51),  (* log(2.0) *)
     S754_finite false 0x162e42fefa39ef (-53));
    (S754_finite false 0x10000000000000 (-52),  (* log(1.0) *)
     S754_zero false);
    (S754_finite false 0x10000000000000 (-53),  (* log(0.5) *)
     S754_finite true 0x162e42fefa39ef (-53));
    (S754_finite false 0x1ccccccccccccd (-53),  (* log(0.9) *)
     S754_finite true 0x1af8e8210a415c (-56));
    (S754_finite false 0x1eb851eb851eb8 (-58),  (* log(0.03) *)
     S754_finite true 0x1c0d6e3a1428a6 (-51));
    (S754_finite false 0x147ae147ae147b (-59),  (* log(0.01) *)
     S754_finite true 0x126bb1bbb55515 (-50));
    (S754_finite false 0x1b7cdfd9d7bdbb (-86),  (* log(1e-10) *)
     S754_finite true 0x17069e2aa2aa5b (-48)) ].

Definition exp_table : list (float * float) :=
  [ (S754_finite true 0x17555555555555 (-53),   (* exp(-70/96) *)
     S754_finite false 0x1ede2de69ae6a6 (-54));
    (S754_finite true 0x14000000000000 (-53),   (* exp(-300/480) *)
     S754_finite false 0x1120dc934993e8 (-53)) ].

(** [x ** y], keyed on [x]; the exponent is checked at the lookup. *)
Definition pow_table : list (float * (float * float)) :=
  [ (S754_finite false 0x162e42fefa39ef (-53),  (* log(2) ** 2.0 *)
     (S754_finite false 0x10000000000000 (-51),
      S754_finite false 0x1ebfbdff82c58e (-54)));
    (S754_finite false 0x1090e90cb28cad (-53),  (* ... ** 7.0 *)
     (S754_finite false 0x1c000000000000 (-50),
      S754_finite false 0x14689c665fbdb5 (-59)));
    (S754_finite false 0x1dbe46d96cd830 (-54),  (* ... ** 30.0 *)
     (S754_finite false 0x1e000000000000 (-48),
      S754_finite false 0x1c895b09f7a1ba (-86))) ].

Definition math_log (x : float) : result float := lookup_float log_table x.
Definition math_exp (x : float) : result float := lookup_float exp_table x.

Definition float_pow (x y : float) : result float :=
  match List.find (fun kv => SFeqb kv.1 x && SFeqb kv.2.1 y) pow_table with
  | Some kv => Ok kv.2.2
  | None => Err ValueError
  end.

Definition runtime : Runtime.
Proof.
  refine (Build_Runtime hash _ fnv1a_64 math_log math_exp float_pow).
  assert (HP : 0 < P < 2 ^ 61) by (unfold P; lia).
  assert (Hmod : forall z, 0 <= z mod P < P)
    by (intros z; apply Z.mod_pos_bound; lia).
  assert (Hsgn : forall z, -1 <= Z.sgn z <= 1)
    by (intros z; destruct z; simpl; lia).
  assert (Hn : forall s x, -1 <= s <= 1 -> 0 <= x < P ->
            - 2 ^ 63 <= not_minus_one (s * x) < 2 ^ 63).
  { intros s x Hs Hx. unfold not_minus_one.
    case Z.eqb_spec; intros; [lia|nia]. }
  assert (Hw : forall z, - 2 ^ 63 <= wrap64 z < 2 ^ 63).
  { intros z. unfold wrap64.
    pose proof (Z.mod_pos_bound (z + 2 ^ 63) (2 ^ 64)). lia. }
  intros v z. destruct v as [| | | | | |d| | |]; unfold hash;
    [| | | | | |destruct d as [s c e|s|[|]]; unfold hash_decimal;
                [match goal with
                 | |- context [?a mod P] =>
                     generalize (Hmod a); generalize (a mod P); intros x Hx
                 end| | |]
     | | |];
    intros [= <-].
  - lia.
  - apply Hn; [apply Hsgn|apply Hmod].
  - apply Hn; [apply Hsgn|apply Hmod].
  - destruct f as [| [|] | |s m e]; unfold hash_float; try lia.
    apply Hn; [destruct s; lia|apply Hmod].
  - unfold not_minus_one.
    pose proof (Hw (hash_float re + 1000003 * hash_float im)).
    case Z.eqb_spec; lia.
  - unfold hash_fraction. case Z.eqb_spec; intros _.
    + pose proof (Hsgn num). lia.
    + apply Hn; [apply Hsgn|apply Hmod].
  - apply Hn; [destruct s; lia|done].
  - destruct s; lia.
  - lia.
  - unfold hash_str. repeat (destruct (String.eqb _ _); [lia|]). apply Hw.
  - apply Hw.
Defined.

(** The runs the examples look at. *)

Definition f_0_01 : float := S754_finite false 0x147ae147ae147b (-59).
Definition f_0_03 : float := S754_finite false 0x1eb851eb851eb8 (-58).
Definition f_0_5 : float := S754_finite false 0x10000000000000 (-53).
Definition f_0_9 : float := S754_finite false 0x1ccccccccccccd (-53).
Definition f_1_0 : float := S754_finite false 0x10000000000000 (-52).
Definition f_1em10 : float := S754_finite false 0x1b7cdfd9d7bdbb (-86).

(** [a = BloomFilter(10, 0.01); b = BloomFilter(10, 0.01);
     c = BloomFilter(10, 0.03)], at addresses 0, 1 and 2: 96 bits and 7
    hash functions for [a] and [b], 73 bits and 5 hash functions for [c]. *)
#[local] Existing Instance runtime.

Definition three_filters : heap :=
  (__init__ (PyInt 10) (PyFloat f_0_03)
     (__init__ (PyInt 10) (PyFloat f_0_01)
        (__init__ (PyInt 10) (PyFloat f_0_01) ∅).2).2).2.

(** ... then [a.put("hello"); a.put("world")]. *)
Definition inserted : heap :=
  put_each [(0%nat, PyStr "hello"); (0%nat, PyStr "world")] three_filters.

(** The instances [a] and [b] as they are then. *)
Definition filter_a : BloomFilter :=
  Eval vm_compute in default (MkBloomFilter PyNone PyNone [] []) (inserted !! 0%nat).
Definition filter_b : BloomFilter :=
  Eval vm_compute in default (MkBloomFilter PyNone PyNone [] []) (inserted !! 1%nat).

(** [BloomFilter(1, 0.9)]: one bit, one hash function. *)
Definition one_bit : heap := (__init__ (PyInt 1) (PyFloat f_0_9) ∅).2.

(** [BloomFilter(10, 1e-10)]: the derived [k] is 33. *)
Definition tiny_rate : heap := (__init__ (PyInt 10) (PyFloat f_1em10) ∅).2.

(** [BloomFilter(1, Fraction(2**60 - 1, 2**60))]: the rate rounds to the
    float 1.0. *)
Definition rate_near_one : value := PyFraction (2 ^ 60 - 1) (2 ^ 60).
Definition no_bits : heap := (__init__ (PyInt 1) rate_near_one ∅).2.

(** [BloomFilter(10, 0.9)]: three bits and a derived [k] of 0. *)
Definition no_hashers : heap := (__init__ (PyInt 10) (PyFloat f_0_9) ∅).2.

(** ... and [a.put(5)] after [inserted]. *)
Definition later : heap := (put 0%nat (PyInt 5) inserted).2.

End CPython.

(* ===================================================================== *)
(** * Specification vocabulary                                            *)
(* ===================================================================== *)

Section Vocabulary.
Context `{RT : Runtime}.

(** The position [hasher] selects for [signature] in a bit array. *)
Definition bucket_index (bit_array : list bool) (signature : list Byte.byte)
    (hasher : Z) : nat :=
  Z.to_nat (xxh3_64_intdigest signature hasher mod len bit_array).

(** [b] has every bit that [a] has, and the same length. *)
Definition bits_le (a b : list bool) : Prop :=
  length a = length b /\ forall i, a !! i = Some true -> b !! i = Some true.

(** [f'] is [f] later in its life: same parameters, same hash functions,
    same size, and no bit lost. *)
Definition grows (f f' : BloomFilter) : Prop :=
  _expected_insertions f' = _expected_insertions f /\
  _fp_rate f' = _fp_rate f /\
  _hash_functions f' = _hash_functions f /\
  bits_le (_bit_array f) (_bit_array f').

(** What [__init__] establishes: the hash functions are a prefix of the
    pool, and a filter without bits has no hash function either. *)
Definition well_formed (f : BloomFilter) : Prop :=
  _hash_functions f = take (length (_hash_functions f)) _hash_fn_pool /\
  (_hash_functions f = [] \/ _bit_array f <> []).

(** Incompatibility in the words of the specification: [other] is not an
    instance, or is the receiver itself, or differs in the number of hash
    functions or in the length of the bit array. *)
Definition incompatible (h : heap) (self : addr) (f : BloomFilter)
    (other : value) : Prop :=
  (forall o, other = PyObj o -> h !! o = None) \/
  other = PyObj self \/
  exists o g, other = PyObj o /\ h !! o = Some g /\
    (length (_hash_functions f) <> length (_hash_functions g) \/
     length (_bit_array f) <> length (_bit_array g)).

(** The arguments the specification has the constructor refuse. *)
Definition refused (expected_insertions fp_rate : value) : Prop :=
  isinstance_int expected_insertions = false \/
  int_value expected_insertions <= 0 \/
  isinstance_Number fp_rate = false \/
  isinstance_complex fp_rate = true \/
  le_int fp_rate 0 = Ok true \/
  ge_int fp_rate 1 = Ok true.

(** A NaN, as a float or as a decimal. *)
Definition is_nan (v : value) : bool :=
  match v with
  | PyFloat S754_nan | PyDecimal (DecNaN _) => true
  | _ => false
  end.

(** A zero, or a finite float of sign [s] ([true] for negative) that is
    below [2^k] in magnitude. *)
Definition ranged (s : bool) (k : Z) (x : float) : Prop :=
  match x with
  | S754_zero _ => True
  | S754_finite s' m e => s' = s /\ Z.pos (digits2_pos m) + e <= k
  | _ => False
  end.

(** A positive finite float, at least [2^(k-1)]. *)
Definition positive_from (k : Z) (x : float) : Prop :=
  match x with
  | S754_finite false m e => k <= Z.pos (digits2_pos m) + e
  | _ => False
  end.

(** The three values the C library contributes to the sizing are where
    the mathematics has them: [log(fp_rate)] is a float from [-2^10] to 0
    (the logarithm of the smallest positive binary64 is about -745),
    [log(2)] is below 1 in magnitude, and [log(2) ** 2] is positive and at
    least 1/4. *)
Definition logarithms_in_range (fp_rate : value) : Prop :=
  exists log_p log_2 log_2_sq,
    log fp_rate = Ok log_p /\ ranged true 10 log_p /\
    log (PyInt 2) = Ok log_2 /\ ranged false 0 log_2 /\
    pow log_2 2 = Ok log_2_sq /\ positive_from (-1) log_2_sq.

(** The sizing half of [__init__]. *)
Definition sizing (expected_insertions fp_rate : value)
  : result (list bool * list Z) :=
  bit_array ← _make_bit_array expected_insertions fp_rate;
  hash_functions ← _pick_hash_functions expected_insertions bit_array;
  Ok (bit_array, hash_functions).

End Vocabulary.

(* ===================================================================== *)
(** * Proofs                                                              *)
(* ===================================================================== *)

(** ** The runtime fragment *)

Lemma bind_Ok {A B} (r : result A) (k : A -> result B) b :
  r ≫= k = Ok b <-> exists a, r = Ok a /\ k a = Ok b.
Proof.
  destruct r as [a|e]; simpl; split.
  - intros H. by exists a.
  - by intros (a' & [= ->] & H).
  - discriminate.
  - by intros (a' & [=] & _).
Qed.

Lemma bind_Err {A B} (r : result A) (k : A -> result B) e :
  r ≫= k = Err e <-> r = Err e \/ exists a, r = Ok a /\ k a = Err e.
Proof.
  destruct r as [a|e']; simpl; split.
  - intros H. right. by exists a.
  - intros [[=]|(a' & [= ->] & H)]. done.
  - intros [= ->]. by left.
  - intros [[= ->]|(a' & [=] & _)]. done.
Qed.

Lemma len_nonneg {A} (l : list A) : 0 <= len l.
Proof. unfold len. lia. Qed.

Lemma len_pos {A} (l : list A) : l <> [] -> 0 < len l.
Proof. destruct l; [done|]. unfold len. simpl. lia. Qed.

Lemma slice_to_pool_length k :
  0 <= k <= 30 -> len (slice_to _hash_fn_pool k) = k.
Proof.
  intros Hk. unfold slice_to, len.
  destruct (Z.ltb_spec k 0); [lia|].
  rewrite length_take.
  replace (length _hash_fn_pool) with 30%nat by reflexivity. lia.
Qed.

Lemma slice_to_length_le {A} (l : list A) k :
  (length (slice_to l k) <= length l)%nat.
Proof. unfold slice_to. destruct (k <? 0); rewrite length_take; lia. Qed.

Lemma slice_to_prefix {A} (l : list A) k :
  slice_to l k = take (length (slice_to l k)) l.
Proof.
  assert (H : forall n, take n l = take (length (take n l)) l).
  { intros n. rewrite length_take.
    destruct (Nat.le_gt_cases n (length l)).
    - by rewrite Nat.min_l.
    - rewrite Nat.min_r by lia. by rewrite !take_ge by lia. }
  unfold slice_to. destruct (k <? 0); apply H.
Qed.

Lemma bits_le_refl a : bits_le a a.
Proof. by split. Qed.

Lemma bits_le_trans a b c : bits_le a b -> bits_le b c -> bits_le a c.
Proof. intros [Hl1 H1] [Hl2 H2]. split; [congruence|auto]. Qed.

Lemma bits_le_insert a i : bits_le a (<[i := true]> a).
Proof.
  split; [by rewrite length_insert|]. intros j Hj.
  destruct (decide (i = j)) as [->|Hne].
  - apply list_lookup_insert_eq. by eapply lookup_lt_Some.
  - by rewrite list_lookup_insert_ne.
Qed.

Lemma bits_le_or_l a b : length a = length b -> bits_le a (zip_with orb a b).
Proof.
  intros Hl. split.
  - rewrite length_zip_with. lia.
  - intros i Hi. rewrite lookup_zip_with, Hi. simpl.
    destruct (lookup_lt_is_Some_2 b i) as [y ->]; [|done].
    rewrite <- Hl. by eapply lookup_lt_Some.
Qed.

Lemma bits_le_or_r a b : length a = length b -> bits_le b (zip_with orb a b).
Proof.
  intros Hl. split.
  - rewrite length_zip_with. lia.
  - intros i Hi. rewrite lookup_zip_with, Hi.
    destruct (lookup_lt_is_Some_2 a i) as [x ->]; [|simpl; by rewrite orb_true_r].
    rewrite Hl. by eapply lookup_lt_Some.
Qed.

Lemma grows_refl f : grows f f.
Proof. repeat split; done. Qed.

Lemma grows_trans f g k : grows f g -> grows g k -> grows f k.
Proof.
  intros (?&?&?&?) (?&?&?&?). repeat split; try congruence.
  - destruct H2, H6. congruence.
  - intros i Hi. destruct H2, H6. auto.
Qed.

Lemma grows_set_bit_array f bits :
  bits_le (_bit_array f) bits -> grows f (set_bit_array f bits).
Proof. intros H. by repeat split; try apply H. Qed.

Lemma well_formed_grows f f' : grows f f' -> well_formed f -> well_formed f'.
Proof.
  intros (_ & _ & Hh & Hl & _) [Hp Hs]. split; [by rewrite Hh|].
  rewrite Hh. destruct Hs as [Hs|Hs]; [by left|right].
  intros E. rewrite E in Hl. by destruct (_bit_array f).
Qed.

(** ** binary64 arithmetic stays in range *)

Section Binary64.

Lemma digits2_pos_bounds p :
  2 ^ (Z.pos (digits2_pos p) - 1) <= Z.pos p < 2 ^ Z.pos (digits2_pos p).
Proof.
  induction p as [p IH|p IH|]; simpl digits2_pos; [| |simpl; lia];
    rewrite Pos2Z.inj_succ;
    replace (Z.succ (Z.pos (digits2_pos p)) - 1)
      with (Z.succ (Z.pos (digits2_pos p) - 1)) by lia;
    rewrite !Z.pow_succ_r by lia; lia.
Qed.

Lemma Zdigits2_nonneg m : 0 <= Zdigits2 m.
Proof. destruct m; simpl; lia. Qed.

Lemma Zdigits2_bounds m :
  0 < m -> 2 ^ (Zdigits2 m - 1) <= m < 2 ^ Zdigits2 m.
Proof. destruct m; try lia. intros _. apply digits2_pos_bounds. Qed.

Lemma Zdigits2_le m k : 0 <= m < 2 ^ k -> 0 <= k -> Zdigits2 m <= k.
Proof.
  intros [H0 Hk] Hk0. destruct (Z.eq_dec m 0) as [->|]; [done|].
  pose proof (Zdigits2_bounds m ltac:(lia)) as [Hl _].
  pose proof (Zdigits2_nonneg m).
  destruct (Z.le_gt_cases (Zdigits2 m) k); [done|].
  assert (2 ^ k <= 2 ^ (Zdigits2 m - 1)) by (apply Z.pow_le_mono_r; lia).
  lia.
Qed.

Lemma Zdigits2_succ m : 0 <= m -> Zdigits2 (m + 1) <= Zdigits2 m + 1.
Proof.
  intros H. pose proof (Zdigits2_nonneg m).
  apply Zdigits2_le; [|lia].
  destruct (Z.eq_dec m 0) as [->|]; [simpl; lia|].
  pose proof (Zdigits2_bounds m ltac:(lia)).
  rewrite Z.pow_add_r, Z.pow_1_r by lia. lia.
Qed.

Lemma Zdigits2_shift m n :
  0 <= m -> 0 < n -> Zdigits2 (m / 2 ^ n) <= Z.max (Zdigits2 m - n) 0.
Proof.
  intros Hm Hn. pose proof (Zdigits2_nonneg m).
  assert (0 < 2 ^ n) by (apply Z.pow_pos_nonneg; lia).
  destruct (Z.eq_dec m 0) as [->|]; [rewrite Z.div_0_l by lia; simpl; lia|].
  pose proof (Zdigits2_bounds m ltac:(lia)) as [_ Hu].
  destruct (Z.le_gt_cases n (Zdigits2 m)).
  - rewrite Z.max_l by lia. apply Zdigits2_le; [|lia]. split.
    + apply Z.div_pos; lia.
    + apply Z.div_lt_upper_bound; [lia|].
      rewrite <- Z.pow_add_r by lia. by replace (n + (Zdigits2 m - n)) with (Zdigits2 m) by lia.
  - rewrite Z.div_small; [simpl; lia|]. split; [lia|].
    assert (2 ^ Zdigits2 m <= 2 ^ n) by (apply Z.pow_le_mono_r; lia). lia.
Qed.

Lemma shr_1_m mrs : 0 <= shr_m mrs -> shr_m (shr_1 mrs) = shr_m mrs / 2.
Proof.
  destruct mrs as [m r s]. simpl. intros Hm.
  destruct m as [|[p|p|]|]; simpl; try lia; try done.
  - rewrite Pos2Z.inj_xI. apply Z.div_unique with 1; lia.
  - rewrite Pos2Z.inj_xO. apply Z.div_unique with 0; lia.
Qed.

Lemma iter_shr_1_m p mrs :
  0 <= shr_m mrs ->
  shr_m (SpecFloat.iter_pos shr_1 p mrs) = shr_m mrs / 2 ^ Z.pos p.
Proof.
  revert mrs. induction p as [p IH|p IH|]; intros mrs Hm;
    cbn [SpecFloat.iter_pos].
  - assert (H1 : 0 <= shr_m (shr_1 mrs))
      by (rewrite shr_1_m by done; apply Z.div_pos; lia).
    assert (H2 : 0 <= shr_m (SpecFloat.iter_pos shr_1 p (shr_1 mrs)))
      by (rewrite IH by done; apply Z.div_pos; lia).
    rewrite !IH, shr_1_m by done.
    rewrite !Z.div_div by lia.
    f_equal. replace (Z.pos p~1) with (1 + Z.pos p + Z.pos p) by lia.
    rewrite !Z.pow_add_r, Z.pow_1_r by lia. lia.
  - assert (H2 : 0 <= shr_m (SpecFloat.iter_pos shr_1 p mrs))
      by (rewrite IH by done; apply Z.div_pos; lia).
    rewrite !IH by done. rewrite Z.div_div by lia.
    f_equal. replace (Z.pos p~0) with (Z.pos p + Z.pos p) by lia.
    rewrite Z.pow_add_r by lia. lia.
  - rewrite shr_1_m by done. done.
Qed.

Lemma shr_m_of_loc m l : shr_m (shr_record_of_loc m l) = m.
Proof. by destruct l as [|[]]. Qed.

(** One normalisation step: the mantissa stays non-negative and the
    magnitude [digits + exponent] does not grow, but for a mantissa shifted
    out entirely, which lands on the smallest exponent. *)
Lemma shr_fexp_magnitude m e l mrs' e' :
  0 <= m -> shr_fexp prec emax m e l = (mrs', e') ->
  0 <= shr_m mrs' /\
  Zdigits2 (shr_m mrs') + e' <= Z.max (Zdigits2 m + e) (-1074) /\
  (0 < shr_m mrs' -> Zdigits2 (shr_m mrs') + e' <= Zdigits2 m + e).
Proof.
  intros Hm. unfold shr_fexp, shr, fexp, emin.
  pose proof (Zdigits2_nonneg m).
  destruct (_ - e) as [|n|n] eqn:Hn; intros [= <- <-];
    rewrite ?shr_m_of_loc; try lia.
  rewrite iter_shr_1_m by (rewrite shr_m_of_loc; lia).
  rewrite shr_m_of_loc.
  pose proof (Zdigits2_shift m (Z.pos n) Hm ltac:(lia)).
  assert (0 < 2 ^ Z.pos n) by (apply Z.pow_pos_nonneg; lia).
  split; [apply Z.div_pos; lia|]. split; [lia|].
  intros Hpos.
  destruct (Z.le_gt_cases (Zdigits2 m) (Z.pos n)); [|lia].
  destruct (Z.eq_dec m 0) as [->|]; [rewrite Z.div_0_l in Hpos; lia|].
  pose proof (Zdigits2_bounds m ltac:(lia)) as [_ Hu].
  assert (2 ^ Zdigits2 m <= 2 ^ Z.pos n) by (apply Z.pow_le_mono_r; lia).
  rewrite Z.div_small in Hpos; lia.
Qed.

Lemma round_nearest_even_cases m l :
  round_nearest_even m l = m \/ round_nearest_even m l = m + 1.
Proof. destruct l as [|[]]; simpl; auto. destruct (Z.even m); auto. Qed.

(** Rounding a mantissa of magnitude at most [k] gives a zero or a finite
    float of magnitude at most [k + 1], of the sign asked for: never an
    infinity and never a NaN, as long as [k] is in the range of binary64. *)
Lemma binary_round_aux_magnitude s m e l k :
  0 <= m -> Zdigits2 m + e <= k -> -1074 <= k <= 971 ->
  match binary_round_aux prec emax s m e l with
  | S754_zero s' => s' = s
  | S754_finite s' m' e' => s' = s /\ Z.pos (digits2_pos m') + e' <= k + 1
  | _ => False
  end.
Proof.
  intros Hm Hk Hr. unfold binary_round_aux.
  destruct (shr_fexp prec emax m e l) as [mrs1 e1] eqn:E1.
  apply shr_fexp_magnitude in E1 as (H1 & H1' & _); [|done].
  set (m1 := round_nearest_even _ _).
  assert (0 <= m1 /\ Zdigits2 m1 <= Zdigits2 (shr_m mrs1) + 1) as [Hm1 Hd1].
  { subst m1. destruct (round_nearest_even_cases (shr_m mrs1) (loc_of_shr_record mrs1)) as [->| ->].
    - lia.
    - split; [lia|]. by apply Zdigits2_succ. }
  destruct (shr_fexp prec emax m1 e1 loc_Exact) as [mrs2 e2] eqn:E2.
  apply shr_fexp_magnitude in E2 as (H2 & _ & H2'); [|done].
  destruct (shr_m mrs2) as [|m2|m2] eqn:Em2; [done| |lia].
  specialize (H2' ltac:(lia)). simpl in H2'.
  destruct (Z.leb_spec e2 (1024 - 53)); [split; [done|lia]|lia].
Qed.


Lemma digits2_pos_shl m d :
  Z.pos (digits2_pos (Pos.iter xO m d)) = Z.pos (digits2_pos m) + Z.pos d.
Proof.
  induction d as [|d IH] using Pos.peano_ind.
  - simpl. lia.
  - rewrite Pos.iter_succ. simpl digits2_pos. lia.
Qed.

Lemma shl_align_magnitude mx ex ex' mz ez :
  shl_align mx ex ex' = (mz, ez) ->
  Z.pos (digits2_pos mz) + ez = Z.pos (digits2_pos mx) + ex.
Proof.
  unfold shl_align. destruct (ex' - ex) as [|d|d] eqn:E; intros [= <- <-];
    [done|done|].
  rewrite digits2_pos_shl. lia.
Qed.

Lemma ranged_mono s k k' x : k <= k' -> ranged s k x -> ranged s k' x.
Proof. destruct x; simpl; try done. intros ? [-> ?]. split; [done|lia]. Qed.

Lemma binary_round_aux_ranged s m e l k :
  0 <= m -> Zdigits2 m + e <= k -> -1074 <= k <= 971 ->
  ranged s (k + 1) (binary_round_aux prec emax s m e l).
Proof.
  intros Hm Hk Hr.
  pose proof (binary_round_aux_magnitude s m e l k Hm Hk Hr) as H.
  by destruct (binary_round_aux _ _ _ _ _ _).
Qed.

Lemma float_of_int_ranged z k :
  Z.abs z < 2 ^ k -> 0 <= k <= 971 ->
  exists f, float_of_int z = Ok f /\ ranged (z <? 0) (k + 1) f.
Proof.
  intros Hz Hk. unfold float_of_int, binary_normalize.
  assert (H : forall s m, Z.pos m < 2 ^ k ->
            ranged s (k + 1) (binary_round prec emax s m 0)).
  { intros s m Hm. unfold binary_round.
    destruct (shl_align _ _ _) as [mz ez] eqn:E.
    apply shl_align_magnitude in E.
    apply binary_round_aux_ranged; [lia| |lia].
    change (Zdigits2 (Z.pos mz)) with (Z.pos (digits2_pos mz)). rewrite E.
    pose proof (Zdigits2_le (Z.pos m) k ltac:(lia) ltac:(lia)). simpl in *. lia. }
  destruct z as [|m|m]; [by eexists| |].
  - specialize (H false m ltac:(lia)).
    destruct (binary_round _ _ _ _ _); try done; by eexists.
  - specialize (H true m ltac:(lia)).
    destruct (binary_round _ _ _ _ _); try done; by eexists.
Qed.

Lemma fmul_ranged sx kx x sy ky y :
  ranged sx kx x -> ranged sy ky y -> -1074 <= kx + ky <= 971 ->
  ranged (xorb sx sy) (kx + ky + 1) (fmul x y).
Proof.
  destruct x as [| | |sx' mx ex], y as [| | |sy' my ey]; simpl; try done.
  intros [-> Hx] [-> Hy] Hk.
  apply binary_round_aux_ranged; [lia| |done].
  pose proof (digits2_pos_bounds mx) as [_ Hmx].
  pose proof (digits2_pos_bounds my) as [_ Hmy].
  assert (Zdigits2 (Z.pos (mx * my))
          <= Z.pos (digits2_pos mx) + Z.pos (digits2_pos my)); [|lia].
  apply Zdigits2_le; [|lia]. rewrite Z.pow_add_r by lia.
  rewrite Pos2Z.inj_mul. nia.
Qed.

Lemma SFdiv_core_binary_magnitude m1 e1 m2 e2 q e' l :
  0 < m1 -> 0 < m2 ->
  SFdiv_core_binary prec emax m1 e1 m2 e2 = (q, e', l) ->
  0 <= q /\
  Zdigits2 q + e' <= Z.max (Zdigits2 m1 + e1 - (Zdigits2 m2 + e2) + 1) (-1074).
Proof.
  intros H1 H2. unfold SFdiv_core_binary, fexp, emin.
  set (d1 := Zdigits2 m1). set (d2 := Zdigits2 m2).
  set (x := Z.min _ _).
  assert (Hx : x <= e1 - e2 /\ x <= Z.max (d1 + e1 - (d2 + e2) - 53) (-1074))
    by (subst x; lia).
  set (s := e1 - e2 - x). assert (Hs : 0 <= s) by (subst s; lia).
  set (m' := match s with 0 => m1 | Z.pos _ => Z.shiftl m1 s | Z.neg _ => 0 end).
  assert (Hm' : m' = m1 * 2 ^ s).
  { subst m'. destruct s; [lia| |lia]. by rewrite Z.shiftl_mul_pow2. }
  pose proof (Z_div_mod m' m2 ltac:(lia)) as Hdm.
  destruct (Z.div_eucl m' m2) as [q' r] eqn:E. intros [= <- <- <-].
  destruct Hdm as [Hdm Hr].
  assert (0 < 2 ^ s) by (apply Z.pow_pos_nonneg; lia).
  assert (Hq : 0 <= q') by nia.
  split; [done|].
  pose proof (Zdigits2_bounds m1 H1) as [_ Hu1]. fold d1 in Hu1.
  pose proof (Zdigits2_bounds m2 H2) as [Hl2 _]. fold d2 in Hl2.
  pose proof (Zdigits2_nonneg m1). pose proof (Zdigits2_nonneg m2).
  assert (0 < d2) by (subst d2; destruct m2; simpl; lia).
  assert (Hd : Zdigits2 q' <= Z.max (d1 + s - d2 + 1) 0); [|subst s; lia].
  destruct (Z.le_gt_cases 0 (d1 + s - d2 + 1)).
  - rewrite Z.max_l by done. apply Zdigits2_le; [|done]. split; [done|].
    assert (2 ^ (d2 - 1) * q' < 2 ^ (d2 - 1) * 2 ^ (d1 + s - d2 + 1)); [|nia].
    rewrite <- Z.pow_add_r by lia.
    replace (d2 - 1 + (d1 + s - d2 + 1)) with (d1 + s) by lia.
    rewrite Z.pow_add_r by lia. nia.
  - rewrite Z.max_r by lia.
    assert (2 ^ (d1 + s) <= 2 ^ (d2 - 1)) by (apply Z.pow_le_mono_r; lia).
    rewrite Z.pow_add_r in * by lia.
    assert (q' = 0) as -> by nia. done.
Qed.

Lemma fdiv_ranged sx kx x sy my ey k :
  ranged sx kx x -> k <= Z.pos (digits2_pos my) + ey ->
  -1074 <= kx - k + 1 <= 971 ->
  exists q, fdiv x (S754_finite sy my ey) = Ok q /\
    ranged (xorb sx sy) (kx - k + 2) q.
Proof.
  intros Hx Hy Hk. unfold fdiv. eexists. split; [done|].
  destruct x as [| | |sx' mx ex]; simpl in *; try done.
  destruct Hx as [-> Hx].
  destruct (SFdiv_core_binary _ _ _ _ _ _) as [[q e'] l] eqn:E.
  apply SFdiv_core_binary_magnitude in E as [Hq He]; [|lia..].
  replace (kx - k + 2) with (kx - k + 1 + 1) by lia.
  apply binary_round_aux_ranged; [done| |done].
  simpl in He. lia.
Qed.

Lemma int_true_div_ranged a b k :
  0 <= a < 2 ^ k -> 0 < b -> 0 <= k <= 970 ->
  exists f, int_true_div a b = Ok f /\ ranged false (k + 1) f.
Proof.
  intros Ha Hb Hk. unfold int_true_div.
  destruct b as [|b|b]; try lia. destruct a as [|a|a]; try lia; [by eexists|].
  destruct (SFdiv_core_binary _ _ _ _ _ _) as [[q e'] l] eqn:E.
  apply SFdiv_core_binary_magnitude in E as [Hq He]; [|lia..].
  assert (H : ranged false (k + 1) (binary_round_aux prec emax false q e' l)).
  { apply binary_round_aux_ranged; [done| |lia].
    pose proof (Zdigits2_le (Z.pos a) k ltac:(lia) ltac:(lia)).
    simpl in *. lia. }
  simpl. destruct (binary_round_aux _ _ _ _ _ _); try done; by eexists.
Qed.

Lemma ceil_ranged k x :
  ranged false k x -> 0 <= k -> exists z, ceil x = Ok z /\ 0 <= z <= 2 ^ k.
Proof.
  intros Hx Hk. assert (0 < 2 ^ k) by (apply Z.pow_pos_nonneg; lia).
  destruct x as [| | |s m e]; simpl in *; try done; [eexists; split; [done|lia]|].
  destruct Hx as [-> Hx]. unfold float_ratio.
  pose proof (digits2_pos_bounds m) as [_ Hm].
  set (d := Z.pos (digits2_pos m)) in *.
  destruct (Z.leb_spec 0 e); eexists; (split; [done|]).
  - rewrite Z.pow_0_r, Z.div_1_r.
    assert (0 < 2 ^ e) by (apply Z.pow_pos_nonneg; lia).
    assert (2 ^ d * 2 ^ e <= 2 ^ k)
      by (rewrite <- Z.pow_add_r by lia; apply Z.pow_le_mono_r; lia).
    nia.
  - assert (He : 0 < 2 ^ (- e)) by (apply Z.pow_pos_nonneg; lia).
    assert (Hlo : (- Z.pos m) / 2 ^ (- e) <= 0).
    { apply Z.lt_succ_r. apply Z.div_lt_upper_bound; lia. }
    assert (Hhi : - 2 ^ k <= (- Z.pos m) / 2 ^ (- e)); [|lia].
    apply Z.div_le_lower_bound; [done|].
    assert (2 ^ d <= 2 ^ (- e) * 2 ^ k); [|lia].
    rewrite <- Z.pow_add_r by lia. apply Z.pow_le_mono_r; lia.
Qed.

Lemma round_ranged s k x : ranged s k x -> exists z, round x = Ok z.
Proof.
  destruct x; simpl; try done; intros _; [by eexists|].
  destruct (float_ratio _ _ _). by eexists.
Qed.

End Binary64.

Section Loops.
Context `{RT : Runtime}.

(** ** The two loops *)

Lemma bucket_nonempty bits sig hasher :
  bits <> [] ->
  bucket bits sig hasher = Ok (Z.of_nat (bucket_index bits sig hasher)) /\
  (bucket_index bits sig hasher < length bits)%nat.
Proof.
  intros Hb. pose proof (len_pos bits Hb) as Hl.
  pose proof (Z.mod_pos_bound (xxh3_64_intdigest sig hasher) (len bits) Hl).
  unfold bucket, mod_, bucket_index.
  destruct (Z.eqb_spec (len bits) 0); [lia|].
  split; [f_equal|unfold len in *]; lia.
Qed.

Lemma bucket_empty sig hasher : bucket [] sig hasher = Err ZeroDivisionError.
Proof. reflexivity. Qed.

Lemma getitem_index bits (i : nat) :
  (i < length bits)%nat ->
  getitem bits (Z.of_nat i) = Ok (bool_decide (bits !! i = Some true)).
Proof.
  intros Hi. unfold getitem. destruct (Z.ltb_spec (Z.of_nat i) 0); [lia|].
  rewrite Nat2Z.id. destruct (lookup_lt_is_Some_2 bits i Hi) as [b ->].
  by destruct b.
Qed.

Lemma setitem_index bits (i : nat) b :
  (i < length bits)%nat ->
  setitem bits (Z.of_nat i) b = Ok (<[i := b]> bits).
Proof.
  intros Hi. unfold setitem, len.
  destruct (Z.ltb_spec (Z.of_nat i) 0); [lia|].
  destruct (Z.leb_spec (Z.of_nat (length bits)) (Z.of_nat i)); [lia|].
  simpl. by rewrite Nat2Z.id.
Qed.

Lemma bucket_index_length bits bits' sig hasher :
  length bits = length bits' ->
  bucket_index bits' sig hasher = bucket_index bits sig hasher.
Proof. intros E. unfold bucket_index, len. by rewrite E. Qed.

(** On a non-empty bit array the loop of [put] runs to its end, keeps the
    length, sets the selected buckets and nothing else. *)
Lemma put_loop_nonempty sig hashers bits :
  bits <> [] ->
  exists bits',
    put_loop sig hashers bits = (Ok tt, bits') /\
    bits_le bits bits' /\
    (forall hasher, hasher ∈ hashers ->
       bits' !! bucket_index bits sig hasher = Some true) /\
    (forall i, bits' !! i = Some true ->
       bits !! i = Some true \/
       exists hasher, hasher ∈ hashers /\ i = bucket_index bits sig hasher).
Proof.
  revert bits. induction hashers as [|hasher rest IH]; intros bits Hb.
  - exists bits. repeat split; auto using bits_le_refl.
    intros hasher Hin. by apply elem_of_nil in Hin.
  - destruct (bucket_nonempty bits sig hasher Hb) as [Hbk Hlt].
    simpl. rewrite Hbk. simpl. rewrite (setitem_index _ _ _ Hlt).
    set (bits1 := <[bucket_index bits sig hasher := true]> bits).
    assert (Hle1 : bits_le bits bits1) by apply bits_le_insert.
    assert (Hb1 : bits1 <> []).
    { intros E. destruct Hle1 as [Hl _]. rewrite E in Hl. by destruct bits. }
    destruct (IH bits1 Hb1) as (bits' & Hrun & Hle & Hset & Honly).
    exists bits'. split; [done|]. split; [by eapply bits_le_trans|].
    assert (Hidx : forall x, bucket_index bits1 sig x = bucket_index bits sig x).
    { intros x. apply bucket_index_length. apply Hle1. }
    split.
    + intros x [->|Hin]%elem_of_cons.
      * apply Hle. unfold bits1. by apply list_lookup_insert_eq.
      * rewrite <- Hidx. by apply Hset.
    + intros i Hi. destruct (Honly i Hi) as [Hi1|(x & Hin & ->)].
      * unfold bits1 in Hi1.
        destruct (decide (bucket_index bits sig hasher = i)) as [<-|Hne].
        -- right. exists hasher. split; [apply list_elem_of_here|done].
        -- left. by rewrite list_lookup_insert_ne in Hi1.
      * right. exists x. split; [by apply list_elem_of_further|apply Hidx].
Qed.

(** Whatever happens, the loop of [put] keeps the length and loses no bit. *)
Lemma put_loop_bits_le sig hashers bits :
  bits_le bits (put_loop sig hashers bits).2.
Proof.
  destruct bits as [|b bits].
  - destruct hashers; simpl; apply bits_le_refl.
  - destruct (put_loop_nonempty sig hashers (b :: bits)) as (bits' & -> & H & _);
      done.
Qed.

(** On a non-empty bit array the loop of [may_contain] answers, and
    answers [True] exactly when every selected bucket holds a 1. *)
Lemma may_contain_loop_nonempty bits sig hashers :
  bits <> [] ->
  may_contain_loop bits sig hashers =
    Ok (bool_decide (Forall (fun hasher =>
          bits !! bucket_index bits sig hasher = Some true) hashers)).
Proof.
  intros Hb. induction hashers as [|hasher rest IH].
  - reflexivity.
  - destruct (bucket_nonempty bits sig hasher Hb) as [Hbk Hlt].
    cbn [may_contain_loop]. rewrite Hbk. cbn [mbind result_bind].
    rewrite (getitem_index _ _ Hlt). cbn [mbind result_bind]. rewrite IH.
    destruct (decide (bits !! bucket_index bits sig hasher = Some true))
      as [Hbit|Hbit].
    + rewrite (bool_decide_eq_true_2 _ Hbit). f_equal.
      apply bool_decide_ext. rewrite Forall_cons. tauto.
    + rewrite (bool_decide_eq_false_2 _ Hbit). f_equal. symmetry.
      apply bool_decide_eq_false_2. rewrite Forall_cons. tauto.
Qed.

Lemma may_contain_loop_no_hasher bits sig : may_contain_loop bits sig [] = Ok true.
Proof. reflexivity. Qed.

End Loops.

Section Class.
Context `{RT : Runtime}.

(** ** The constructor *)

(** With no bit to index, the derived [k] is 0: [0 / n] is a zero, a zero
    times [log(2)] is a zero or a NaN, and [round] maps them to 0 or
    raises. *)
Lemma derived_k_empty n k : derived_k n [] = Ok k -> k = 0.
Proof.
  unfold derived_k. change (len []) with 0.
  intros (q & Hq & (l2 & _ & Hr)%bind_Ok)%bind_Ok.
  assert (exists s, q = S754_zero s) as [s ->].
  { unfold int_true_div in Hq. destruct (int_value n); [done| |];
      injection Hq as <-; eauto. }
  destruct l2 as [| | |]; simpl in Hr; by try injection Hr as <-.
Qed.

Lemma bitarray_zero length bits :
  bitarray length = Ok bits ->
  bits = replicate (Z.to_nat length) false /\ 0 <= length < 2 ^ 63.
Proof.
  unfold bitarray.
  destruct (Z.ltb_spec length (- 2 ^ 63)), (Z.leb_spec (2 ^ 63) length);
    simpl; try done.
  destruct (Z.ltb_spec length 0); [done|]. intros [= <-]. split; [done|lia].
Qed.

Lemma init_fields_Ok n p f :
  init_fields n p = Ok f <->
  exists bits hs,
    check_arguments n p = Ok tt /\ _make_bit_array n p = Ok bits /\
    _pick_hash_functions n bits = Ok hs /\ f = MkBloomFilter n p bits hs.
Proof.
  unfold init_fields. rewrite bind_Ok. split.
  - intros ([] & Hc & (bits & Hb & (hs & Hh & [= <-])%bind_Ok)%bind_Ok).
    by exists bits, hs.
  - intros (bits & hs & Hc & Hb & Hh & ->). exists tt. split; [done|].
    rewrite Hb. simpl. by rewrite Hh.
Qed.

Lemma make_bit_array_zero n p bits :
  _make_bit_array n p = Ok bits -> bits = replicate (length bits) false.
Proof.
  unfold _make_bit_array. repeat setoid_rewrite bind_Ok.
  intros (? & _ & ? & _ & ? & _ & ? & _ & ? & _ & m & _ & Hb).
  apply bitarray_zero in Hb as [-> _]. by rewrite length_replicate.
Qed.

Lemma pick_hash_functions_Ok n bits hs :
  _pick_hash_functions n bits = Ok hs <->
  exists k, derived_k n bits = Ok k /\ hs = slice_to _hash_fn_pool k.
Proof.
  unfold _pick_hash_functions. rewrite bind_Ok.
  split; intros (k & Hk & H); exists k; split; congruence.
Qed.

Lemma init_fields_well_formed n p f : init_fields n p = Ok f -> well_formed f.
Proof.
  intros (bits & hs & _ & _ & (k & Hk & ->)%pick_hash_functions_Ok & ->)%init_fields_Ok.
  split; simpl.
  - apply slice_to_prefix.
  - destruct bits as [|b bits]; [left|by right].
    by rewrite (derived_k_empty _ _ Hk).
Qed.

(** ** Unfolding the methods on a live instance *)

Lemma init_Ok n p h a h' :
  __init__ n p h = (Ok a, h') <->
  exists f, init_fields n p = Ok f /\ a = fresh (dom h) /\ h' = <[a := f]> h.
Proof.
  unfold __init__. destruct (init_fields n p) as [f|e]; split.
  - intros [= <- <-]. by exists f.
  - by intros (f' & [= <-] & -> & ->).
  - done.
  - by intros (f' & [=] & _).
Qed.

Lemma init_Err n p h e h' :
  __init__ n p h = (Err e, h') <-> init_fields n p = Err e /\ h' = h.
Proof.
  unfold __init__. destruct (init_fields n p) as [f|e']; split;
    try done; try (by intros [[=] _]).
  - by intros [= <- <-].
  - by intros [[= <-] ->].
Qed.

Lemma fresh_addr_free (h : heap) : h !! fresh (dom h) = None.
Proof. apply not_elem_of_dom, is_fresh. Qed.

Lemma put_live self item h f sig :
  h !! self = Some f -> byte_signature item = Ok sig ->
  put self item h =
    ((put_loop sig (_hash_functions f) (_bit_array f)).1,
     <[self := set_bit_array f
                 (put_loop sig (_hash_functions f) (_bit_array f)).2]> h).
Proof.
  intros Hf Hs. unfold put. rewrite Hf, Hs.
  by destruct (put_loop sig (_hash_functions f) (_bit_array f)).
Qed.

Lemma put_unhashable self item h f e :
  h !! self = Some f -> byte_signature item = Err e ->
  put self item h = (Err e, h).
Proof. intros Hf Hs. unfold put. by rewrite Hf, Hs. Qed.

Lemma byte_signature_hashable item hx :
  hash item = Ok hx -> byte_signature item = Ok (be_bytes 64 hx).
Proof.
  intros Hx. unfold byte_signature. rewrite Hx. simpl.
  pose proof (hash_range _ _ Hx) as Hr. unfold to_bytes.
  destruct (Z.leb_spec (- 2 ^ (8 * Z.of_nat 64 - 1)) hx),
    (Z.ltb_spec hx (2 ^ (8 * Z.of_nat 64 - 1))); simpl; try done;
    change (8 * Z.of_nat 64 - 1) with 511 in *;
    assert (2 ^ 63 < 2 ^ 511) by (apply Z.pow_lt_mono_r; lia); lia.
Qed.

Lemma is_compatible_true h self f other :
  _is_compatible h self f other = true <->
  exists o g, other = PyObj o /\ h !! o = Some g /\ self <> o /\
    length (_hash_functions f) = length (_hash_functions g) /\
    length (_bit_array f) = length (_bit_array g).
Proof.
  unfold _is_compatible, isinstance_BloomFilter, len. split.
  - destruct other as [| | | | | | | | |o]; try done. simpl.
    destruct (h !! o) as [g|] eqn:Hg; [|done]. simpl.
    destruct (decide (self = o)); [done|].
    destruct (Z.eqb_spec (Z.of_nat (length (_hash_functions f)))
                (Z.of_nat (length (_hash_functions g)))); [|done].
    destruct (Z.eqb_spec (Z.of_nat (length (_bit_array f)))
                (Z.of_nat (length (_bit_array g)))); [|done].
    intros _. exists o, g. repeat split; auto; lia.
  - intros (o & g & -> & Hg & Hne & Hk & Hm). simpl. rewrite Hg. simpl.
    destruct (decide (self = o)); [done|]. rewrite Hk, Hm.
    by rewrite !Z.eqb_refl.
Qed.

Lemma put_all_compatible h self f o g :
  h !! self = Some f -> h !! o = Some g -> self <> o ->
  length (_hash_functions f) = length (_hash_functions g) ->
  length (_bit_array f) = length (_bit_array g) ->
  put_all self (PyObj o) h =
    (Ok tt,
     <[self := set_bit_array f (zip_with orb (_bit_array f) (_bit_array g))]> h).
Proof.
  intros Hf Hg Hne Hk Hm. unfold put_all. rewrite Hf.
  rewrite (proj2 (is_compatible_true h self f (PyObj o)))
    by (exists o, g; done).
  simpl. rewrite Hg. simpl. unfold ior, len. rewrite Hm.
  by rewrite Z.eqb_refl.
Qed.

Lemma put_all_incompatible h self f other :
  h !! self = Some f -> _is_compatible h self f other = false ->
  put_all self other h = (Err ValueError, h).
Proof. intros Hf Hc. unfold put_all. by rewrite Hf, Hc. Qed.

(** ** Histories: instances stay, and only grow *)

Lemma insert_grows (h : heap) self f f' a g :
  h !! self = Some f -> grows f f' -> h !! a = Some g ->
  exists g', <[self := f']> h !! a = Some g' /\ grows g g'.
Proof.
  intros Hf Hgr Hg. destruct (decide (self = a)) as [->|Hne].
  - rewrite lookup_insert_eq. exists f'. split; [done|]. congruence.
  - rewrite lookup_insert_ne by done. exists g. auto using grows_refl.
Qed.

Lemma step_grows h h' a f :
  step h h' -> h !! a = Some f ->
  exists f', h' !! a = Some f' /\ grows f f'.
Proof.
  intros Hstep Hf. destruct Hstep as [n p r h h' H|self item r h h' H|self other r h h' H].
  - destruct r as [b|e].
    + apply init_Ok in H as (g & _ & -> & ->).
      rewrite lookup_insert_ne; [eauto using grows_refl|].
      intros E. rewrite <- E, fresh_addr_free in Hf. done.
    + apply init_Err in H as [_ ->]. eauto using grows_refl.
  - unfold put in H. destruct (h !! self) as [g|] eqn:Hg;
      [|injection H as <- <-; eauto using grows_refl].
    destruct (byte_signature item) as [sig|e];
      [|injection H as <- <-; eauto using grows_refl].
    pose proof (put_loop_bits_le sig (_hash_functions g) (_bit_array g)) as Hle.
    destruct (put_loop sig (_hash_functions g) (_bit_array g)) as [r' bits'].
    injection H as <- <-. eapply insert_grows; eauto using grows_set_bit_array.
  - unfold put_all in H. destruct (h !! self) as [g|] eqn:Hg;
      [|injection H as <- <-; eauto using grows_refl].
    destruct (_is_compatible h self g other) eqn:Hc;
      [|injection H as <- <-; eauto using grows_refl].
    apply is_compatible_true in Hc as (o & g' & -> & Hg' & Hne & Hk & Hm).
    simpl in H. rewrite Hg' in H. simpl in H. unfold ior, len in H.
    rewrite Hm, Z.eqb_refl in H. injection H as <- <-.
    eapply insert_grows; eauto using grows_set_bit_array, bits_le_or_l.
Qed.

Lemma steps_grow h h' a f :
  rtc step h h' -> h !! a = Some f ->
  exists f', h' !! a = Some f' /\ grows f f'.
Proof.
  intros Hsteps. revert f. induction Hsteps as [h|h h1 h2 Hstep _ IH]; intros f Hf.
  - eauto using grows_refl.
  - destruct (step_grows _ _ _ _ Hstep Hf) as (f1 & Hf1 & Hg1).
    destruct (IH _ Hf1) as (f2 & Hf2 & Hg2). eauto using grows_trans.
Qed.

Lemma put_is_step self item h : step h (put self item h).2.
Proof. eapply step_put. apply surjective_pairing. Qed.

Lemma put_each_steps calls h : rtc step h (put_each calls h).
Proof.
  revert h. induction calls as [|[self item] rest IH]; intros h; simpl.
  - apply rtc_refl.
  - eapply rtc_l; [apply put_is_step|apply IH].
Qed.

(** ** Every instance a program holds is well formed *)

Lemma step_new_instance h h' a f :
  step h h' -> h !! a = None -> h' !! a = Some f -> well_formed f.
Proof.
  intros Hstep Hn Hf. destruct Hstep as [n p r h h' H|self item r h h' H|self other r h h' H].
  - destruct r as [b|e].
    + apply init_Ok in H as (g & Hg & -> & ->).
      destruct (decide (fresh (dom h) = a)) as [<-|Hne].
      * rewrite lookup_insert_eq in Hf. injection Hf as <-.
        by eapply init_fields_well_formed.
      * rewrite lookup_insert_ne in Hf by done. congruence.
    + apply init_Err in H as [_ ->]. congruence.
  - unfold put in H. destruct (h !! self) as [g|] eqn:Hg;
      [|injection H as <- <-; congruence].
    destruct (byte_signature item) as [sig|e]; [|injection H as <- <-; congruence].
    destruct (put_loop sig (_hash_functions g) (_bit_array g)) as [r' bits'].
    injection H as <- <-. rewrite lookup_insert_ne in Hf; congruence.
  - unfold put_all in H. destruct (h !! self) as [g|] eqn:Hg;
      [|injection H as <- <-; congruence].
    destruct (_is_compatible h self g other); [|injection H as <- <-; congruence].
    destruct (isinstance_BloomFilter h other) as [[o g']|];
      [|injection H as <- <-; congruence].
    destruct (ior (_bit_array g) (_bit_array g')); injection H as <- <-;
      [rewrite lookup_insert_ne in Hf|]; congruence.
Qed.

Lemma reachable_well_formed h a f :
  reachable h -> h !! a = Some f -> well_formed f.
Proof.
  unfold reachable. intros Hr. revert a f. pattern h.
  eapply rtc_ind_r; [| |exact Hr]; clear h Hr.
  - intros a f Hf. by rewrite lookup_empty in Hf.
  - intros h1 h2 _ Hstep IH a f Hf.
    destruct (h1 !! a) as [g|] eqn:Hg.
    + destruct (step_grows _ _ _ _ Hstep Hg) as (f' & Hf' & Hgr).
      assert (f' = f) as -> by congruence.
      eapply well_formed_grows; eauto.
    + by eapply step_new_instance.
Qed.

End Class.

Section Claims.
Context `{RT : Runtime}.

(** ** Queries only improve as bits are added *)

Lemma may_contain_loop_mono bits bits' sig hashers :
  bits_le bits bits' ->
  may_contain_loop bits sig hashers = Ok true ->
  may_contain_loop bits' sig hashers = Ok true.
Proof.
  intros [Hl Hle] H. destruct bits as [|b bits].
  - destruct bits'; [done|discriminate].
  - assert (Hne' : bits' <> []) by (intros ->; discriminate).
    rewrite may_contain_loop_nonempty in H |- * by done.
    injection H as H. apply bool_decide_eq_true_1 in H.
    f_equal. apply bool_decide_eq_true_2.
    eapply Forall_impl; [exact H|]. intros hasher Hh. simpl in Hh.
    rewrite (bucket_index_length (b :: bits) bits') by done. by apply Hle.
Qed.

Lemma may_contain_of_grows f f' item :
  grows f f' ->
  may_contain_of f item = Ok true -> may_contain_of f' item = Ok true.
Proof.
  intros (_ & _ & Hh & Hle). unfold may_contain_of.
  destruct (byte_signature item) as [sig|e]; [simpl|done].
  rewrite Hh. by apply may_contain_loop_mono.
Qed.

Lemma may_contain_live self item h f :
  h !! self = Some f -> may_contain self item h = (may_contain_of f item, h).
Proof. intros Hf. unfold may_contain. by rewrite Hf. Qed.

(** [put] on a well-formed instance returns, and the item is then found. *)
Lemma put_then_found h self f x hx :
  well_formed f -> h !! self = Some f -> hash x = Ok hx ->
  exists f1,
    put self x h = (Ok tt, <[self := f1]> h) /\ grows f f1 /\
    may_contain_of f1 x = Ok true.
Proof.
  intros [_ Hsized] Hf Hx.
  pose proof (byte_signature_hashable _ _ Hx) as Hsig.
  rewrite (put_live _ _ _ _ _ Hf Hsig).
  destruct (decide (_bit_array f = [])) as [Hb|Hb].
  - destruct Hsized as [Hh|]; [|done]. rewrite Hh, Hb. simpl.
    exists (set_bit_array f []). split; [done|]. split.
    + apply grows_set_bit_array. rewrite Hb. apply bits_le_refl.
    + unfold may_contain_of. rewrite Hsig. simpl. by rewrite Hh.
  - destruct (put_loop_nonempty (be_bytes 64 hx) (_hash_functions f)
                (_bit_array f) Hb) as (bits' & Hrun & Hle & Hset & _).
    rewrite Hrun. simpl. exists (set_bit_array f bits').
    split; [done|]. split; [by apply grows_set_bit_array|].
    unfold may_contain_of. rewrite Hsig. simpl.
    assert (Hb' : bits' <> []).
    { intros ->. destruct Hle as [Hl _]. by destruct (_bit_array f). }
    rewrite may_contain_loop_nonempty by done. f_equal.
    apply bool_decide_eq_true_2, Forall_forall. intros hasher Hin.
    rewrite (bucket_index_length (_bit_array f) bits') by apply Hle.
    by apply Hset.
Qed.

(** After [put(x)] on an instance a program can hold, [may_contain(x)]
    is [True] in every later state. *)
Lemma found_ever_after h self f x hx :
  reachable h -> h !! self = Some f -> hash x = Ok hx ->
  exists h1,
    put self x h = (Ok tt, h1) /\
    forall h2, rtc step h1 h2 -> may_contain self x h2 = (Ok true, h2).
Proof.
  intros Hr Hf Hx.
  destruct (put_then_found h self f x hx) as (f1 & Hput & _ & Hfound);
    eauto using reachable_well_formed.
  exists (<[self := f1]> h). split; [done|].
  intros h2 Hsteps.
  destruct (steps_grow _ _ self f1 Hsteps) as (f2 & Hf2 & Hgr);
    [apply lookup_insert_eq|].
  rewrite (may_contain_live _ _ _ _ Hf2).
  by rewrite (may_contain_of_grows _ _ _ Hgr Hfound).
Qed.

(** C1. Zero false negatives: on any instance a program can hold, [put(x)]
    of a hashable [x] returns, and from then on [may_contain(x)] returns
    [True] -- after any run of further [put] calls, on this or other
    instances, with any items, and indeed after any further calls of the
    mutating methods of the class. *)
Theorem no_false_negatives h self f x hx :
  reachable h -> h !! self = Some f -> hash x = Ok hx ->
  exists h1,
    put self x h = (Ok tt, h1) /\
    (forall calls,
       may_contain self x (put_each calls h1) = (Ok true, put_each calls h1)) /\
    (forall h2, rtc step h1 h2 -> may_contain self x h2 = (Ok true, h2)).
Proof.
  intros Hr Hf Hx.
  destruct (found_ever_after h self f x hx Hr Hf Hx) as (h1 & Hput & Hlater).
  exists h1. split; [done|]. split; [|done].
  intros calls. apply Hlater, put_each_steps.
Qed.

(** C2. A freshly constructed filter holds no 1: its bit array is all
    zeros, at a fresh address. *)
Theorem fresh_filter_all_zero n p h a h' :
  __init__ n p h = (Ok a, h') ->
  exists f,
    h !! a = None /\ h' !! a = Some f /\
    _bit_array f = replicate (length (_bit_array f)) false /\
    forall i, _bit_array f !! i <> Some true.
Proof.
  intros (f & Hf & -> & ->)%init_Ok. exists f.
  split; [apply fresh_addr_free|]. split; [apply lookup_insert_eq|].
  apply init_fields_Ok in Hf as (bits & hs & _ & Hb & _ & ->). simpl.
  pose proof (make_bit_array_zero _ _ _ Hb) as Hz. split; [done|].
  intros i Hi. rewrite Hz in Hi. by apply lookup_replicate in Hi as [? _].
Qed.

(** ** Compatibility *)

Lemma is_compatible_false h self f other :
  _is_compatible h self f other = false <-> incompatible h self f other.
Proof.
  rewrite <- not_true_iff_false, is_compatible_true. unfold incompatible. split.
  - intros Hno. destruct other as [| | | | | | | | |o];
      try (left; intros o' [=]; fail).
    destruct (h !! o) as [g|] eqn:Hg; [|left; by intros o' [= <-]].
    destruct (decide (self = o)) as [->|Hne]; [by right; left|].
    right; right. exists o, g. split; [done|]. split; [done|].
    destruct (decide (length (_hash_functions f) = length (_hash_functions g)));
      [|by left].
    destruct (decide (length (_bit_array f) = length (_bit_array g)));
      [|by right].
    destruct Hno. by exists o, g.
  - intros [Hnone|[->|(o & g & -> & Hg & Hdiff)]] (o' & g' & [= E] & Hg' & Hne & Hk & Hm).
    + rewrite (Hnone _ E) in Hg'. done.
    + congruence.
    + subst o'. assert (g' = g) as -> by congruence. tauto.
Qed.

(** C3. [put_all(other)] raises [ValueError] (IncompatibleFilter) exactly
    when [other] is not an instance, is the receiver, or differs in the
    number of hash functions or the length of the bit array; it raises
    nothing else; and when it raises, the heap -- the receiver with its
    bit array included -- is as it was. *)
Theorem put_all_raises_iff h self f other :
  h !! self = Some f ->
  ((put_all self other h).1 = Err ValueError <-> incompatible h self f other) /\
  (forall e, (put_all self other h).1 = Err e ->
     e = ValueError /\ incompatible h self f other /\
     (put_all self other h).2 = h) /\
  (~ incompatible h self f other -> (put_all self other h).1 = Ok tt).
Proof.
  intros Hf. pose proof (is_compatible_false h self f other) as Hi.
  destruct (_is_compatible h self f other) eqn:Hc.
  - assert (Hn : ~ incompatible h self f other) by (by intros H%Hi).
    apply is_compatible_true in Hc as (o & g & -> & Hg & Hne & Hk & Hm).
    rewrite (put_all_compatible h self f o g) by done. simpl.
    split; [split; [done|by intros H]|]. split; done.
  - assert (Hy : incompatible h self f other) by (by apply Hi).
    rewrite (put_all_incompatible h self f other) by done. simpl.
    split; [done|]. split; [by intros e [= <-]|]. by intros [].
Qed.

(** Two well-formed filters with as many hash functions have the same
    hash functions. *)
Lemma well_formed_same_hashers f g :
  well_formed f -> well_formed g ->
  length (_hash_functions f) = length (_hash_functions g) ->
  _hash_functions f = _hash_functions g.
Proof. intros [Hf _] [Hg _] E. rewrite Hf, Hg. by rewrite E. Qed.

(** C6. On two compatible filters [self.put_all(other)] returns; the
    receiver's bit array becomes the element-wise OR of the two; [other]
    and every other instance are as they were; and every item that
    [may_contain] reported on either filter before is reported by the
    receiver afterwards. *)
Theorem put_all_union h self o f g :
  reachable h -> h !! self = Some f -> h !! o = Some g ->
  ~ incompatible h self f (PyObj o) ->
  exists h',
    put_all self (PyObj o) h = (Ok tt, h') /\
    h' !! self =
      Some (set_bit_array f (zip_with orb (_bit_array f) (_bit_array g))) /\
    h' !! o = Some g /\
    (forall a, a <> self -> h' !! a = h !! a) /\
    (forall item,
       (may_contain self item h).1 = Ok true \/
       (may_contain o item h).1 = Ok true ->
       may_contain self item h' = (Ok true, h')).
Proof.
  intros Hr Hf Hg Hcompat.
  assert (Hc : _is_compatible h self f (PyObj o) = true).
  { destruct (_is_compatible h self f (PyObj o)) eqn:E; [done|].
    by apply is_compatible_false in E. }
  apply is_compatible_true in Hc as (o' & g' & [= <-] & Hg' & Hne & Hk & Hm).
  assert (g' = g) as -> by congruence.
  set (merged := zip_with orb (_bit_array f) (_bit_array g)).
  exists (<[self := set_bit_array f merged]> h).
  split; [by apply put_all_compatible|].
  split; [apply lookup_insert_eq|].
  split; [by rewrite lookup_insert_ne|].
  split; [by intros a Ha; rewrite lookup_insert_ne|].
  intros item Hbefore.
  rewrite (may_contain_live self item _ (set_bit_array f merged))
    by apply lookup_insert_eq.
  f_equal. rewrite (may_contain_live _ _ _ _ Hf),
    (may_contain_live _ _ _ _ Hg) in Hbefore. simpl in Hbefore.
  destruct Hbefore as [H|H].
  - eapply may_contain_of_grows; [|exact H].
    apply grows_set_bit_array. by apply bits_le_or_l.
  - unfold may_contain_of in *.
    destruct (byte_signature item) as [sig|e]; [simpl in *|done].
    rewrite (well_formed_same_hashers f g)
      by eauto using reachable_well_formed.
    eapply may_contain_loop_mono; [|exact H]. by apply bits_le_or_r.
Qed.

(** C10. The byte signature depends on [hash(item)] alone: two items with
    the same hash are answered alike by [may_contain] and written alike by
    [put], on every instance in every state; so [put] of one makes
    [may_contain] of the other return [True]. *)
Theorem equal_hash_same_item x y hx :
  hash x = Ok hx -> hash y = Ok hx ->
  byte_signature x = byte_signature y /\
  (forall self h, may_contain self x h = may_contain self y h) /\
  (forall self h, put self x h = put self y h) /\
  (forall self h f, reachable h -> h !! self = Some f ->
     exists h1, put self x h = (Ok tt, h1) /\
                may_contain self y h1 = (Ok true, h1)).
Proof.
  intros Hx Hy.
  assert (Hsig : byte_signature x = byte_signature y)
    by (unfold byte_signature; by rewrite Hx, Hy).
  assert (Hmay : forall self h, may_contain self x h = may_contain self y h).
  { intros self h. unfold may_contain, may_contain_of. by rewrite Hsig. }
  split; [done|]. split; [done|]. split.
  - intros self h. unfold put. by rewrite Hsig.
  - intros self h f Hr Hf.
    destruct (found_ever_after h self f x hx Hr Hf Hx) as (h1 & Hput & Hlater).
    exists h1. split; [done|]. rewrite <- Hmay. apply Hlater, rtc_refl.
Qed.

(** ** The byte signature *)

Lemma byte_of_Z_value z : Z.of_N (Byte.to_N (byte_of_Z z)) = z mod 256.
Proof.
  pose proof (Z.mod_pos_bound z 256 eq_refl) as Hb. unfold byte_of_Z.
  destruct (Byte.of_N (Z.to_N (z mod 256))) as [b|] eqn:E.
  - apply Byte.to_of_N in E. simpl. rewrite E. lia.
  - apply Byte.of_N_None_iff in E. lia.
Qed.

Lemma be_bytes_inj_mod n z1 z2 :
  be_bytes n z1 = be_bytes n z2 ->
  z1 mod 256 ^ Z.of_nat n = z2 mod 256 ^ Z.of_nat n.
Proof.
  revert z1 z2. induction n as [|n IH]; intros z1 z2 H.
  - by rewrite !Z.mod_1_r.
  - change (be_bytes n (z1 / 256) ++ [byte_of_Z z1] =
            be_bytes n (z2 / 256) ++ [byte_of_Z z2]) in H.
    apply app_inj_tail in H as [Hhi Hlo].
    apply IH in Hhi. apply (f_equal (fun b => Z.of_N (Byte.to_N b))) in Hlo.
    rewrite !byte_of_Z_value in Hlo.
    rewrite Nat2Z.inj_succ, Z.pow_succ_r by lia.
    rewrite !Z.rem_mul_r by lia. by rewrite Hhi, Hlo.
Qed.

(** Hashes that differ give signatures that differ: 64 bytes hold a
    machine word with room to spare. *)
Lemma signature_inj z1 z2 :
  - 2 ^ 63 <= z1 < 2 ^ 63 -> - 2 ^ 63 <= z2 < 2 ^ 63 ->
  be_bytes 64 z1 = be_bytes 64 z2 -> z1 = z2.
Proof.
  intros H1 H2 H%be_bytes_inj_mod.
  change (256 ^ Z.of_nat 64) with (2 ^ 512) in H.
  assert (Hlt : 2 ^ 64 < 2 ^ 512) by (apply Z.pow_lt_mono_r; lia).
  assert (Hd : (z1 - z2) mod 2 ^ 512 = 0).
  { rewrite Zminus_mod, H, Z.sub_diag. apply Z.mod_0_l. lia. }
  apply Z.mod_divide in Hd as [q Hq]; [|lia].
  assert (q = 0) by nia. lia.
Qed.

(** The bits of a fresh filter after one [put]: exactly the selected
    buckets. *)
Lemma first_put_bits sig hashers bits i :
  bits <> [] -> (forall j, bits !! j <> Some true) ->
  (put_loop sig hashers bits).2 !! i = Some true <->
  exists hasher, hasher ∈ hashers /\ i = bucket_index bits sig hasher.
Proof.
  intros Hne Hzero.
  destruct (put_loop_nonempty sig hashers _ Hne)
    as (bits' & -> & _ & Hset & Honly). simpl. split.
  - intros [Hz|H]%Honly; [|done]. by apply Hzero in Hz.
  - intros (hasher & Hin & ->). by apply Hset.
Qed.

(** C9, as the code has it.  After the first [put(x)] on a freshly
    constructed filter, [may_contain(y)] answers, and answers [True]
    exactly when every bucket selected for [y] is also selected for [x].
    The signatures are the 64-byte encodings of the two hashes and differ
    whenever the hashes do: nothing is coerced through text. *)
Theorem first_put_then_query n p h a h1 x y hx hy :
  __init__ n p h = (Ok a, h1) -> hash x = Ok hx -> hash y = Ok hy ->
  exists f h2 answer,
    h1 !! a = Some f /\ put a x h1 = (Ok tt, h2) /\
    may_contain a y h2 = (Ok answer, h2) /\
    (answer = true <->
       forall hasher, hasher ∈ _hash_functions f ->
         exists hasher', hasher' ∈ _hash_functions f /\
           bucket_index (_bit_array f) (be_bytes 64 hy) hasher =
           bucket_index (_bit_array f) (be_bytes 64 hx) hasher') /\
    byte_signature x = Ok (be_bytes 64 hx) /\
    byte_signature y = Ok (be_bytes 64 hy) /\
    (hx <> hy -> be_bytes 64 hx <> be_bytes 64 hy).
Proof.
  intros (f & Hinit & -> & ->)%init_Ok Hx Hy.
  pose proof (init_fields_well_formed _ _ _ Hinit) as [_ Hsized].
  apply init_fields_Ok in Hinit as (bits & hs & _ & Hz%make_bit_array_zero & _ & ->).
  simpl in Hsized.
  pose proof (byte_signature_hashable _ _ Hx) as Hsx.
  pose proof (byte_signature_hashable _ _ Hy) as Hsy.
  set (f := MkBloomFilter n p bits hs). set (a := fresh (dom h)).
  set (bits' := (put_loop (be_bytes 64 hx) hs bits).2).
  assert (Hf : <[a := f]> h !! a = Some f) by apply lookup_insert_eq.
  exists f, (<[a := set_bit_array f bits']> (<[a := f]> h)).
  assert (Hinj : hx <> hy -> be_bytes 64 hx <> be_bytes 64 hy).
  { intros Hne E. apply Hne.
    eapply signature_inj; eauto using hash_range. }
  assert (Hmay : forall answer,
            may_contain_loop bits' (be_bytes 64 hy) hs = Ok answer ->
            may_contain a y (<[a := set_bit_array f bits']> (<[a := f]> h)) =
              (Ok answer, <[a := set_bit_array f bits']> (<[a := f]> h))).
  { intros answer Hl.
    rewrite (may_contain_live a y _ (set_bit_array f bits'))
      by apply lookup_insert_eq.
    unfold may_contain_of, f. rewrite Hsy. simpl. by rewrite Hl. }
  destruct (decide (bits = [])) as [Hb|Hb].
  - destruct Hsized as [->|]; [|done]. subst bits. exists true.
    split; [done|]. split; [by rewrite (put_live _ _ _ _ _ Hf Hsx)|].
    split; [by apply Hmay|]. split; [|done]. split; [|done].
    intros _ hasher Hin. by apply elem_of_nil in Hin.
  - assert (Hm : length bits <> O) by (by destruct bits).
    destruct (put_loop_nonempty (be_bytes 64 hx) hs bits Hb)
      as (bits1 & Hrun & Hle & _).
    assert (Hb' : bits' <> []).
    { unfold bits'. rewrite Hrun. simpl. intros ->.
      destruct Hle as [Hl _]. by destruct bits. }
    assert (Hlen : length bits = length bits').
    { unfold bits'. rewrite Hrun. apply Hle. }
    eexists. split; [done|]. split.
    { rewrite (put_live _ _ _ _ _ Hf Hsx). simpl. fold bits'.
      by rewrite Hrun. }
    split; [apply Hmay, may_contain_loop_nonempty, Hb'|].
    split; [|done]. change (_bit_array f) with bits.
    change (_hash_functions f) with hs.
    rewrite bool_decide_eq_true, Forall_forall.
    assert (Hzero : forall j, bits !! j <> Some true).
    { intros j Hj. rewrite Hz in Hj. by apply lookup_replicate in Hj as [? _]. }
    split; intros H hasher Hin; specialize (H hasher Hin).
    + rewrite (bucket_index_length bits bits') in H by done.
      apply first_put_bits in H as (hasher' & Hin' & E); eauto.
    + destruct H as (hasher' & Hin' & E).
      rewrite (bucket_index_length bits bits') by done. rewrite E.
      apply first_put_bits; eauto.
Qed.

(** ** The constructor's argument checks *)

Lemma le_int_int n z :
  isinstance_int n = true -> le_int n z = Ok (int_value n <=? z).
Proof. by destruct n. Qed.

(** Only a decimal NaN makes a comparison of the checks raise. *)
Lemma le_int_Number p z e :
  isinstance_Number p = true -> isinstance_complex p = false ->
  le_int p z = Err e \/ ge_int p z = Err e ->
  e = InvalidOperation /\ is_nan p = true /\
  le_int p z = Err e /\ ge_int p z = Err e.
Proof.
  destruct p as [| | | | | |[| |]| | |]; simpl; try done;
    intros _ _ [[=]|[=]]; by subst.
Qed.

Lemma check_arguments_refused n p :
  (exists e, check_arguments n p = Err e /\ (e = TypeError \/ e = ValueError))
  <-> refused n p.
Proof.
  unfold check_arguments, refused.
  assert (Hraise : forall e (Q : Prop),
            (e = TypeError \/ e = ValueError) -> Q ->
            (exists e', @Err unit e = Err e' /\
                        (e' = TypeError \/ e' = ValueError)) <-> Q).
  { intros e Q He HQ. split; [done|]. intros _. by exists e. }
  destruct (isinstance_int n) eqn:Hn; simpl;
    [|apply Hraise; [by left|by left]].
  rewrite (le_int_int n 0 Hn). simpl.
  destruct (Z.leb_spec (int_value n) 0);
    [apply Hraise; [by right|by right; left]|].
  destruct (isinstance_Number p) eqn:HN; simpl;
    [|apply Hraise; [by left|by do 2 right; left]].
  destruct (isinstance_complex p) eqn:HC;
    [apply Hraise; [by left|by do 3 right; left]|].
  destruct (le_int p 0) as [[|]|e0] eqn:H0; simpl.
  - apply Hraise; [by right|by do 4 right; left].
  - destruct (ge_int p 1) as [[|]|e1] eqn:H1; simpl.
    + apply Hraise; [by right|by do 5 right].
    + split; [by intros (e & [=] & _)|].
      intros [|[|[|[|[|]]]]]; (done || lia).
    + exfalso. by destruct p as [| | | | | |[| |]| | |].
  - destruct (le_int_Number p 0 e0 HN HC) as (-> & _ & _ & _); [by left|].
    split; [by intros (e & [= <-] & [|])|].
    intros [|[|[|[|[|Hge]]]]]; try (done || lia).
    by destruct p as [| | | | | |[| |]| | |].
Qed.

(** The checks raise [TypeError] or [ValueError], and
    [decimal.InvalidOperation] on a decimal NaN. *)
Lemma check_arguments_error n p e :
  check_arguments n p = Err e ->
  e = TypeError \/ e = ValueError \/
  (e = InvalidOperation /\ is_nan p = true).
Proof.
  unfold check_arguments.
  destruct (isinstance_int n) eqn:Hn; simpl; [|intros [= <-]; auto].
  rewrite (le_int_int n 0 Hn). simpl.
  destruct (int_value n <=? 0); [intros [= <-]; auto|].
  destruct (isinstance_Number p) eqn:HN; simpl; [|intros [= <-]; auto].
  destruct (isinstance_complex p) eqn:HC; [intros [= <-]; auto|].
  destruct (le_int p 0) as [[|]|e0] eqn:H0; simpl.
  - intros [= <-]; auto.
  - destruct (ge_int p 1) as [[|]|e1] eqn:H1; simpl; intros [= <-]; auto.
    destruct (le_int_Number p 1 e1 HN HC) as (-> & ? & _ & _); auto.
  - intros [= <-].
    destruct (le_int_Number p 0 e0 HN HC) as (-> & ? & _ & _); auto.
Qed.

Lemma check_arguments_passed n p :
  ~ refused n p -> is_nan p = false -> check_arguments n p = Ok tt.
Proof.
  intros Hr Hnan. destruct (check_arguments n p) as [[]|e] eqn:E; [done|].
  destruct (check_arguments_error _ _ _ E) as [->|[->|[_ H]]].
  - destruct Hr. apply check_arguments_refused; eauto.
  - destruct Hr. apply check_arguments_refused; eauto.
  - congruence.
Qed.

Lemma check_arguments_positive n p :
  check_arguments n p = Ok tt -> 0 < int_value n.
Proof.
  unfold check_arguments.
  destruct (isinstance_int n) eqn:Hn; simpl; [|done].
  rewrite (le_int_int n 0 Hn). simpl.
  destruct (Z.leb_spec (int_value n) 0); [done|lia].
Qed.

Lemma init_fields_checked n p :
  check_arguments n p = Ok tt ->
  init_fields n p =
    '(bits, hs) ← sizing n p; Ok (MkBloomFilter n p bits hs).
Proof.
  intros Hc. unfold init_fields, sizing. rewrite Hc. simpl.
  destruct (_make_bit_array n p) as [bits|e]; [simpl|done].
  by destruct (_pick_hash_functions n bits).
Qed.

(** ** The sizing stays in range *)

(** With fewer than [2^47] expected insertions the sizing cannot
    overflow: [-n * log(p)] is a float below [2^59], the quotient is
    below [2^62] and non-negative, so its ceiling is a length [bitarray]
    takes, [m / n] and its product with [log(2)] are finite, and [round]
    and the slice return. *)
Lemma sizing_in_range n p :
  0 < int_value n < 2 ^ 47 -> logarithms_in_range p ->
  exists bits hs, sizing n p = Ok (bits, hs).
Proof.
  intros Hn (log_p & log_2 & log_2_sq & Hlp & Rlp & Hl2 & Rl2 & Hsq & Rsq).
  unfold sizing, _make_bit_array. rewrite Hlp. simpl.
  destruct (float_of_int_ranged (- int_value n) 47) as (minus_n & -> & Rn);
    [lia|lia|]. simpl.
  rewrite Hl2. simpl. rewrite Hsq. simpl.
  replace (- int_value n <? 0) with true in Rn by (symmetry; apply Z.ltb_lt; lia).
  pose proof (fmul_ranged _ _ _ _ _ _ Rn Rlp ltac:(lia)) as Rprod.
  destruct log_2_sq as [| | |[|] m e]; try done. simpl in Rsq.
  destruct (fdiv_ranged _ _ _ false m e (-1) Rprod Rsq ltac:(lia))
    as (quotient & -> & Rq). simpl.
  destruct (ceil_ranged _ _ Rq ltac:(lia)) as (length & -> & Hlen). simpl.
  change (47 + 1 + 10 + 1 - -1 + 2) with 62 in Hlen.
  assert (H62 : 2 ^ 62 < 2 ^ 63) by lia.
  unfold bitarray.
  destruct (Z.ltb_spec length (- 2 ^ 63)); [lia|].
  destruct (Z.leb_spec (2 ^ 63) length); [lia|]. simpl.
  destruct (Z.ltb_spec length 0); [lia|]. simpl.
  unfold _pick_hash_functions, derived_k.
  replace (len (replicate (Z.to_nat length) false)) with length
    by (unfold len; rewrite length_replicate; lia).
  destruct (int_true_div_ranged length (int_value n) 63) as (m_over_n & -> & Rm);
    [lia|lia|lia|]. simpl.
  rewrite Hl2. simpl.
  pose proof (fmul_ranged _ _ _ _ _ _ Rm Rl2 ltac:(lia)) as Rk.
  destruct (round_ranged _ _ _ Rk) as (k & ->). simpl. eauto.
Qed.

(** C4, as the code has it.  The argument checks of the constructor raise
    [TypeError] or [ValueError] exactly on the refused arguments, and then
    construction raises that exception.  A construction that raises
    creates nothing.  On any other arguments -- the rate not a NaN --
    construction succeeds whenever the sizing stays in range, that is with
    fewer than [2^47] expected insertions and logarithms in range: it
    creates one object, at a fresh address, and touches nothing else. *)
Theorem constructor_validation n p h :
  ((exists e, check_arguments n p = Err e /\
              (e = TypeError \/ e = ValueError)) <-> refused n p) /\
  (refused n p ->
   exists e, (e = TypeError \/ e = ValueError) /\
     __init__ n p h = (Err e, h)) /\
  (forall e, (__init__ n p h).1 = Err e -> (__init__ n p h).2 = h) /\
  (~ refused n p -> is_nan p = false ->
   int_value n < 2 ^ 47 -> logarithms_in_range p ->
   exists bits hs,
     sizing n p = Ok (bits, hs) /\
     h !! fresh (dom h) = None /\
     __init__ n p h =
       (Ok (fresh (dom h)),
        <[fresh (dom h) := MkBloomFilter n p bits hs]> h)).
Proof.
  split; [apply check_arguments_refused|]. split; [|split].
  - intros (e & He & Hte)%check_arguments_refused. exists e. split; [done|].
    unfold __init__, init_fields. by rewrite He.
  - intros e. unfold __init__. by destruct (init_fields n p).
  - intros Hr Hnan Hn Hlog.
    pose proof (check_arguments_passed _ _ Hr Hnan) as Hc.
    pose proof (check_arguments_positive _ _ Hc) as Hpos.
    destruct (sizing_in_range n p ltac:(lia) Hlog) as (bits & hs & Hs).
    exists bits, hs. split; [done|]. split; [apply fresh_addr_free|].
    unfold __init__. rewrite (init_fields_checked _ _ Hc), Hs. done.
Qed.

(** ** Selecting the hash functions *)

(** [_pick_hash_functions] puts no bound on the derived [k]: it slices
    the pool, which cannot raise, so it returns whenever the arithmetic
    deriving [k] returns and raises only what that arithmetic raises; a
    derived [k] from 0 to 30 selects exactly [k] functions. *)
Lemma pick_hash_functions_unchecked n bits :
  (forall k, derived_k n bits = Ok k ->
     exists hs, _pick_hash_functions n bits = Ok hs /\
       (0 <= k <= 30 -> len hs = k /\ hs = seqZ 0 k)) /\
  (forall e, _pick_hash_functions n bits = Err e -> derived_k n bits = Err e).
Proof.
  unfold _pick_hash_functions. split.
  - intros k Hk. rewrite Hk. simpl. eexists. split; [done|].
    intros Hr. split; [by apply slice_to_pool_length|].
    unfold slice_to, _hash_fn_pool. destruct (Z.ltb_spec k 0); [lia|].
    replace 30 with (k + (30 - k)) by lia.
    rewrite seqZ_app by lia. apply take_app_length'.
    rewrite length_seqZ. lia.
  - intros e. destruct (derived_k n bits); simpl; [discriminate|].
    by intros [= <-].
Qed.

(** ** What later calls leave alone *)

(** [expected_fpp] reads [n], the number of hash functions and the length
    of the bit array, which no later call changes. *)
Lemma expected_fpp_of_grows f f' :
  grows f f' -> expected_fpp_of f' = expected_fpp_of f.
Proof.
  intros (Hn & _ & Hh & Hl & _). unfold expected_fpp_of, len.
  by rewrite Hn, Hh, Hl.
Qed.

Lemma expected_fpp_stable h h' self f :
  h !! self = Some f -> rtc step h h' ->
  expected_fpp self h' = ((expected_fpp self h).1, h').
Proof.
  intros Hf Hsteps.
  destruct (steps_grow _ _ _ _ Hsteps Hf) as (f' & Hf' & Hgr).
  unfold expected_fpp. rewrite Hf, Hf'. simpl.
  by rewrite (expected_fpp_of_grows _ _ Hgr).
Qed.

(** The sizes derived at construction stay for life. *)
Lemma sizes_stable h h' self f :
  h !! self = Some f -> rtc step h h' ->
  exists f', h' !! self = Some f' /\
    length (_bit_array f') = length (_bit_array f) /\
    _hash_functions f' = _hash_functions f.
Proof.
  intros Hf Hsteps.
  destruct (steps_grow _ _ _ _ Hsteps Hf) as (f' & Hf' & _ & _ & Hh & Hl & _).
  eauto.
Qed.

(** The constructor is a function of its two arguments. *)
Lemma same_arguments_same_filter n p h1 h2 a1 a2 h1' h2' :
  __init__ n p h1 = (Ok a1, h1') -> __init__ n p h2 = (Ok a2, h2') ->
  h1' !! a1 = h2' !! a2.
Proof.
  intros (f1 & H1 & -> & ->)%init_Ok (f2 & H2 & -> & ->)%init_Ok.
  rewrite !lookup_insert_eq. congruence.
Qed.


End Claims.

(* ===================================================================== *)
(** * The claims on the concrete runtime                                  *)
(* ===================================================================== *)

Section Histories.
Context `{RT : Runtime}.

Lemma reachable_empty : reachable ∅.
Proof. apply rtc_refl. Qed.

Lemma reachable_init n p h : reachable h -> reachable (__init__ n p h).2.
Proof.
  intros Hr. eapply rtc_r; [exact Hr|].
  eapply step_init. apply surjective_pairing.
Qed.

Lemma reachable_put_each calls h : reachable h -> reachable (put_each calls h).
Proof. intros Hr. unfold reachable. etrans; [exact Hr|apply put_each_steps]. Qed.

(** A filter of one bit cannot tell items apart: once anything hashable
    has been put, everything hashable is reported. *)
Lemma one_bit_filter_reports_all h self f x y hx hy :
  h !! self = Some f -> length (_bit_array f) = 1%nat ->
  _hash_functions f <> [] -> hash x = Ok hx -> hash y = Ok hy ->
  (may_contain self y (put self x h).2).1 = Ok true.
Proof.
  intros Hf Hlen Hh Hx Hy.
  assert (Hne : _bit_array f <> []) by (by destruct (_bit_array f)).
  rewrite (put_live _ _ _ _ _ Hf (byte_signature_hashable _ _ Hx)).
  destruct (put_loop_nonempty (be_bytes 64 hx) (_hash_functions f)
              (_bit_array f) Hne) as (bits' & -> & [Hl _] & Hset & _).
  cbn [snd]. rewrite (may_contain_live self y _ (set_bit_array f bits'))
    by apply lookup_insert_eq.
  unfold may_contain_of. rewrite (byte_signature_hashable _ _ Hy).
  cbn [fst mbind result_bind set_bit_array _bit_array _hash_functions].
  assert (Hne' : bits' <> []) by (intros ->; by rewrite Hlen in Hl).
  rewrite may_contain_loop_nonempty by done. f_equal.
  apply bool_decide_eq_true_2, Forall_forall. intros hasher _.
  destruct (_hash_functions f) as [|hasher0 rest] eqn:E; [done|].
  specialize (Hset hasher0 (list_elem_of_here _ _)).
  assert (Hz : forall bits sig z, length bits = 1%nat -> bucket_index bits sig z = O).
  { intros bits sig z Hb. unfold bucket_index, len. rewrite Hb.
    by rewrite Z.mod_1_r. }
  rewrite Hz in Hset by done. rewrite Hz by congruence. done.
Qed.

End Histories.

Section OnCPython.
#[local] Existing Instance CPython.runtime.
Import CPython.

Lemma reachable_inserted : reachable inserted.
Proof.
  unfold inserted, three_filters.
  apply reachable_put_each. repeat apply reachable_init. apply reachable_empty.
Qed.

(** [hash(1) == hash(1.0) == hash(True) == 1], and the string ["1"] hashes
    elsewhere. *)
Example equal_hashes :
  hash (PyInt 1) = Ok 1 /\ hash (PyFloat f_1_0) = Ok 1 /\
  hash (PyBool true) = Ok 1 /\ hash (PyStr "1") = Ok (-3253224058849956942).
Proof. by vm_compute. Qed.

(** The sizes of the filters of the test suite, as CPython derives them. *)
Example test_suite_sizes :
  (f ← init_fields (PyInt 10000) (PyFloat f_0_01);
   Ok (len (_bit_array f), len (_hash_functions f))) = Ok (95851, 7) /\
  (f ← init_fields (PyInt 100000) (PyFloat f_0_03);
   Ok (len (_bit_array f), len (_hash_functions f))) = Ok (729845, 5) /\
  (f ← init_fields (PyInt 100000) (PyFloat f_0_01);
   Ok (len (_bit_array f), len (_hash_functions f))) = Ok (958506, 7).
Proof. by vm_compute. Qed.

(** ** Instances of the theorems *)

Lemma no_false_negatives_witness :
  reachable inserted /\ inserted !! 0%nat = Some filter_a /\
  hash (PyInt 7) = Ok 7 /\
  exists h1,
    put 0%nat (PyInt 7) inserted = (Ok tt, h1) /\
    (forall calls,
       may_contain 0%nat (PyInt 7) (put_each calls h1) =
         (Ok true, put_each calls h1)) /\
    (forall h2, rtc step h1 h2 -> may_contain 0%nat (PyInt 7) h2 = (Ok true, h2)).
Proof.
  split; [apply reachable_inserted|]. split; [by vm_compute|].
  split; [by vm_compute|].
  apply (no_false_negatives inserted 0%nat filter_a (PyInt 7) 7);
    [apply reachable_inserted|by vm_compute|by vm_compute].
Defined.

Lemma fresh_filter_all_zero_witness :
  __init__ (PyInt 1) (PyFloat f_0_9) ∅ = (Ok 0%nat, one_bit) /\
  exists f,
    (∅ : heap) !! 0%nat = None /\ one_bit !! 0%nat = Some f /\
    _bit_array f = replicate (length (_bit_array f)) false /\
    forall i, _bit_array f !! i <> Some true.
Proof.
  split; [by vm_compute|].
  apply (fresh_filter_all_zero (PyInt 1) (PyFloat f_0_9) ∅ 0%nat one_bit).
  by vm_compute.
Defined.

Lemma put_all_raises_iff_witness :
  let other := PyList [PyInt 0; PyInt 0; PyInt 0] in
  inserted !! 0%nat = Some filter_a /\
  ((put_all 0%nat other inserted).1 = Err ValueError <->
     incompatible inserted 0%nat filter_a other) /\
  (forall e, (put_all 0%nat other inserted).1 = Err e ->
     e = ValueError /\ incompatible inserted 0%nat filter_a other /\
     (put_all 0%nat other inserted).2 = inserted) /\
  (~ incompatible inserted 0%nat filter_a other ->
     (put_all 0%nat other inserted).1 = Ok tt).
Proof.
  intros other. split; [by vm_compute|].
  apply (put_all_raises_iff inserted 0%nat filter_a other). by vm_compute.
Defined.

Lemma compatible_b_a : ~ incompatible inserted 1%nat filter_b (PyObj 0%nat).
Proof. intros H%is_compatible_false. by vm_compute in H. Qed.

Lemma put_all_union_witness :
  reachable inserted /\ inserted !! 1%nat = Some filter_b /\
  inserted !! 0%nat = Some filter_a /\
  ~ incompatible inserted 1%nat filter_b (PyObj 0%nat) /\
  exists h',
    put_all 1%nat (PyObj 0%nat) inserted = (Ok tt, h') /\
    h' !! 1%nat =
      Some (set_bit_array filter_b
              (zip_with orb (_bit_array filter_b) (_bit_array filter_a))) /\
    h' !! 0%nat = Some filter_a /\
    (forall a, a <> 1%nat -> h' !! a = inserted !! a) /\
    (forall item,
       (may_contain 1%nat item inserted).1 = Ok true \/
       (may_contain 0%nat item inserted).1 = Ok true ->
       may_contain 1%nat item h' = (Ok true, h')).
Proof.
  split; [apply reachable_inserted|]. split; [by vm_compute|].
  split; [by vm_compute|]. split; [apply compatible_b_a|].
  apply (put_all_union inserted 1%nat 0%nat filter_b filter_a);
    [apply reachable_inserted|by vm_compute|by vm_compute|apply compatible_b_a].
Defined.

Lemma equal_hash_same_item_witness :
  hash (PyInt 1) = Ok 1 /\ hash (PyFloat f_1_0) = Ok 1 /\
  byte_signature (PyInt 1) = byte_signature (PyFloat f_1_0) /\
  (forall self h,
     may_contain self (PyInt 1) h = may_contain self (PyFloat f_1_0) h) /\
  (forall self h, put self (PyInt 1) h = put self (PyFloat f_1_0) h) /\
  (forall self h f, reachable h -> h !! self = Some f ->
     exists h1, put self (PyInt 1) h = (Ok tt, h1) /\
                may_contain self (PyFloat f_1_0) h1 = (Ok true, h1)).
Proof.
  split; [by vm_compute|]. split; [by vm_compute|].
  apply (equal_hash_same_item (PyInt 1) (PyFloat f_1_0) 1); by vm_compute.
Defined.

Lemma first_put_then_query_witness :
  __init__ (PyInt 1) (PyFloat f_0_9) ∅ = (Ok 0%nat, one_bit) /\
  hash (PyInt 1) = Ok 1 /\ hash (PyStr "1") = Ok (-3253224058849956942) /\
  exists f h2 answer,
    one_bit !! 0%nat = Some f /\ put 0%nat (PyInt 1) one_bit = (Ok tt, h2) /\
    may_contain 0%nat (PyStr "1") h2 = (Ok answer, h2) /\
    (answer = true <->
       forall hasher, hasher ∈ _hash_functions f ->
         exists hasher', hasher' ∈ _hash_functions f /\
           bucket_index (_bit_array f)
             (be_bytes 64 (-3253224058849956942)) hasher =
           bucket_index (_bit_array f) (be_bytes 64 1) hasher') /\
    byte_signature (PyInt 1) = Ok (be_bytes 64 1) /\
    byte_signature (PyStr "1") = Ok (be_bytes 64 (-3253224058849956942)) /\
    (1 <> -3253224058849956942 ->
     be_bytes 64 1 <> be_bytes 64 (-3253224058849956942)).
Proof.
  split; [by vm_compute|]. split; [by vm_compute|]. split; [by vm_compute|].
  apply (first_put_then_query (PyInt 1) (PyFloat f_0_9) ∅ 0%nat one_bit
           (PyInt 1) (PyStr "1") 1 (-3253224058849956942)); by vm_compute.
Defined.

(** ** Where the claims and the code part *)

(** C9, as stated, fails.  On [BloomFilter(1, 0.9)] -- one bit, one hash
    function -- the string ["1"] is not reported at first, and is reported
    once the integer [1] has been put, although the two hash apart. *)
Lemma type_discrimination_counterexample :
  __init__ (PyInt 1) (PyFloat f_0_9) ∅ = (Ok 0%nat, one_bit) /\
  hash (PyInt 1) <> hash (PyStr "1") /\
  (may_contain 0%nat (PyStr "1") one_bit).1 = Ok false /\
  (put 0%nat (PyInt 1) one_bit).1 = Ok tt /\
  (may_contain 0%nat (PyStr "1") (put 0%nat (PyInt 1) one_bit).2).1 = Ok true.
Proof. by vm_compute. Qed.

(** C4, as stated, fails.  [BloomFilter(2**1024, 0.5)]: the arguments are
    none of those the claim has refused, yet no object is created:
    [-n * log(p)] cannot turn [n] into a float and raises [OverflowError]. *)
Lemma constructor_overflow_counterexample :
  ~ refused (PyInt (2 ^ 1024)) (PyFloat f_0_5) /\
  check_arguments (PyInt (2 ^ 1024)) (PyFloat f_0_5) = Ok tt /\
  __init__ (PyInt (2 ^ 1024)) (PyFloat f_0_5) ∅ = (Err OverflowError, ∅).
Proof.
  split; [|by vm_compute].
  intros [H|[H|[H|[H|[H|H]]]]]; vm_compute in H; try discriminate.
  by apply H.
Qed.

(** Decimal rates.  [Decimal('0.01')] gets the sizes [0.01] gets; ordering
    a decimal NaN raises [InvalidOperation] inside the checks, and nothing
    is created. *)
Example decimal_rates :
  (f ← init_fields (PyInt 10000) (PyDecimal (DecFinite false 1 (-2)));
   Ok (len (_bit_array f), len (_hash_functions f))) = Ok (95851, 7) /\
  refused (PyInt 10000) (PyDecimal (DecFinite false 10 (-1))) /\
  __init__ (PyInt 10000) (PyDecimal (DecNaN false)) ∅ =
    (Err InvalidOperation, ∅).
Proof.
  split; [by vm_compute|]. split; [|by vm_compute].
  do 5 right. by vm_compute.
Qed.

(** C4 at [BloomFilter(10000, 0.01)], the filter of the test suite: the
    arguments are not refused, the sizing is in range, and the
    construction creates the one object. *)
Lemma constructor_validation_witness :
  ~ refused (PyInt 10000) (PyFloat f_0_01) /\
  is_nan (PyFloat f_0_01) = false /\
  int_value (PyInt 10000) < 2 ^ 47 /\
  logarithms_in_range (PyFloat f_0_01) /\
  exists bits hs,
    sizing (PyInt 10000) (PyFloat f_0_01) = Ok (bits, hs) /\
    (∅ : heap) !! fresh (dom (∅ : heap)) = None /\
    __init__ (PyInt 10000) (PyFloat f_0_01) ∅ =
      (Ok (fresh (dom (∅ : heap))),
       <[fresh (dom (∅ : heap)) :=
           MkBloomFilter (PyInt 10000) (PyFloat f_0_01) bits hs]> ∅).
Proof.
  assert (Hr : ~ refused (PyInt 10000) (PyFloat f_0_01)).
  { intros [H|[H|[H|[H|[H|H]]]]]; vm_compute in H; try discriminate.
    by apply H. }
  assert (Hlog : logarithms_in_range (PyFloat f_0_01)).
  { exists (S754_finite true 0x126bb1bbb55515 (-50)),
           (S754_finite false 0x162e42fefa39ef (-53)),
           (S754_finite false 0x1ebfbdff82c58e (-54)).
    repeat split; try (by vm_compute); simpl; lia. }
  assert (Hn : int_value (PyInt 10000) < 2 ^ 47) by (simpl; lia).
  split; [exact Hr|]. split; [reflexivity|]. split; [exact Hn|].
  split; [exact Hlog|].
  exact (proj2 (proj2 (proj2
           (constructor_validation (PyInt 10000) (PyFloat f_0_01) ∅)))
           Hr eq_refl Hn Hlog).
Defined.

(** C5 against the code.  [BloomFilter(10, 1e-10)] derives [k = 33], above
    the 30 functions of the pool.  The slice past the end of the pool is
    not detected: construction returns, and the instance holds the 30
    functions of the pool. *)
Theorem k_above_pool_undetected :
  (bits ← _make_bit_array (PyInt 10) (PyFloat f_1em10);
   derived_k (PyInt 10) bits) = Ok 33 /\
  len _hash_fn_pool = 30 /\
  __init__ (PyInt 10) (PyFloat f_1em10) ∅ = (Ok 0%nat, tiny_rate) /\
  _hash_functions <$> tiny_rate !! 0%nat = Some _hash_fn_pool.
Proof. by vm_compute. Qed.

(** C8 against the code.  [BloomFilter(10, 1e-10)]: 480 bits, a derived
    [k] of 33, and the 30 functions of the pool instead of the first 33:
    the count of hash functions is not the derived [k]. *)
Theorem hash_functions_truncated :
  __init__ (PyInt 10) (PyFloat f_1em10) ∅ = (Ok 0%nat, tiny_rate) /\
  (f ← init_fields (PyInt 10) (PyFloat f_1em10);
   k ← derived_k (_expected_insertions f) (_bit_array f);
   Ok (len (_bit_array f), k, _hash_functions f)) =
    Ok (480, 33, _hash_fn_pool) /\
  len _hash_fn_pool = 30 /\
  _hash_fn_pool <> seqZ 0 33.
Proof. by vm_compute. Qed.

(** C7 against the code.  [BloomFilter(1, Fraction(2**60 - 1, 2**60))]:
    the rate lies strictly between 0 and 1 and passes the checks; as a
    float it is 1.0, so the filter gets no bit and no hash function, and
    [expected_fpp()] divides by zero.  And on [BloomFilter(10, 1e-10)] the
    estimate is computed with 30, the number of functions selected, not
    with the derived [k] of 33. *)
Theorem expected_fpp_raises :
  check_arguments (PyInt 1) rate_near_one = Ok tt /\
  __init__ (PyInt 1) rate_near_one ∅ = (Ok 0%nat, no_bits) /\
  (exists f, no_bits !! 0%nat = Some f /\
     _bit_array f = [] /\ _hash_functions f = []) /\
  expected_fpp 0%nat no_bits = (Err ZeroDivisionError, no_bits) /\
  (expected_fpp 0%nat tiny_rate).1 =
    (exponent ← int_true_div (- (30 * 10)) 480;
     expected_zero_density ← math_exp exponent;
     pow (fsub (S754_finite false 0x10000000000000 (-52))
            expected_zero_density) 30).
Proof. repeat split; try (by vm_compute). eexists. by vm_compute. Qed.

End OnCPython.

(* ===================================================================== *)
(** * Further properties of the class                                     *)
(* ===================================================================== *)

Section Algebra.
Context `{RT : Runtime}.

(** ** Bit arrays *)

(** Two bit arrays of one length with their 1s at the same places are
    equal. *)
Lemma bits_ext (a b : list bool) :
  length a = length b ->
  (forall i, a !! i = Some true <-> b !! i = Some true) -> a = b.
Proof.
  intros Hl H. apply list_eq. intros i.
  destruct (a !! i) as [x|] eqn:Ha, (b !! i) as [y|] eqn:Hb.
  - destruct x, y; try done.
    + apply H in Ha. congruence.
    + apply H in Hb. congruence.
  - apply lookup_lt_Some in Ha. apply lookup_ge_None in Hb. lia.
  - apply lookup_lt_Some in Hb. apply lookup_ge_None in Ha. lia.
  - done.
Qed.

Lemma or_bits_true (a b : list bool) i :
  length a = length b ->
  zip_with orb a b !! i = Some true <->
  a !! i = Some true \/ b !! i = Some true.
Proof.
  intros Hl. rewrite lookup_zip_with.
  destruct (a !! i) as [x|] eqn:Ha, (b !! i) as [y|] eqn:Hb; simpl.
  - destruct x, y; simpl; split; try (by intros [|]); try discriminate;
      intros _; (by left) || (by right).
  - apply lookup_lt_Some in Ha. apply lookup_ge_None in Hb. lia.
  - apply lookup_lt_Some in Hb. apply lookup_ge_None in Ha. lia.
  - split; [done|]. by intros [|].
Qed.

Lemma set_bit_array_same f : set_bit_array f (_bit_array f) = f.
Proof. by destruct f. Qed.

(** ** The bits [put] leaves *)

(** Where the bit array is non-empty, or there is no hash function, the
    loop of [put] returns and leaves the old bits plus the selected
    buckets. *)
Lemma put_loop_exact sig hashers bits :
  hashers = [] \/ bits <> [] ->
  (put_loop sig hashers bits).1 = Ok tt /\
  length (put_loop sig hashers bits).2 = length bits /\
  forall i,
    (put_loop sig hashers bits).2 !! i = Some true <->
    bits !! i = Some true \/
    exists hasher, hasher ∈ hashers /\ i = bucket_index bits sig hasher.
Proof.
  intros [->|Hb].
  - simpl. split; [done|]. split; [done|]. intros i. split; [by left|].
    intros [H|(hasher & Hin & _)]; [done|]. by apply elem_of_nil in Hin.
  - destruct (put_loop_nonempty sig hashers bits Hb)
      as (bits' & -> & [Hl Hle] & Hset & Honly). simpl.
    split; [done|]. split; [done|]. intros i. split; [apply Honly|].
    intros [H|(hasher & Hin & ->)]; [by apply Hle|by apply Hset].
Qed.

Lemma put_loop_sized sig hashers bits :
  hashers = [] \/ bits <> [] ->
  hashers = [] \/ (put_loop sig hashers bits).2 <> [].
Proof.
  intros H. destruct (put_loop_exact sig hashers bits H) as (_ & Hl & _).
  destruct H as [H|H]; [by left|right].
  intros E. rewrite E in Hl. by destruct bits.
Qed.

(** Marking for one signature and then for another is marking for the
    other and then for the one. *)
Lemma put_loop_comm s1 s2 hashers bits :
  hashers = [] \/ bits <> [] ->
  (put_loop s2 hashers (put_loop s1 hashers bits).2).2 =
  (put_loop s1 hashers (put_loop s2 hashers bits).2).2.
Proof.
  intros H.
  destruct (put_loop_exact s1 hashers bits H) as (_ & Hl1 & H1).
  destruct (put_loop_exact s2 hashers bits H) as (_ & Hl2 & H2).
  destruct (put_loop_exact s2 hashers _ (put_loop_sized s1 _ _ H))
    as (_ & Hl12 & H12).
  destruct (put_loop_exact s1 hashers _ (put_loop_sized s2 _ _ H))
    as (_ & Hl21 & H21).
  apply bits_ext; [congruence|]. intros i. rewrite H12, H21, H1, H2.
  setoid_rewrite (bucket_index_length bits (put_loop s1 hashers bits).2);
    [|done].
  setoid_rewrite (bucket_index_length bits (put_loop s2 hashers bits).2);
    [|done].
  tauto.
Qed.

(** Marking twice for one signature is marking once. *)
Lemma put_loop_idem sig hashers bits :
  hashers = [] \/ bits <> [] ->
  (forall hasher, hasher ∈ hashers ->
     bits !! bucket_index bits sig hasher = Some true) ->
  (put_loop sig hashers bits).2 = bits.
Proof.
  intros H Hset. destruct (put_loop_exact sig hashers bits H) as (_ & Hl & He).
  apply bits_ext; [done|]. intros i. rewrite He. split; [|by left].
  intros [Hi|(hasher & Hin & ->)]; [done|by apply Hset].
Qed.

(** ** [put] on the heap *)

Lemma put_heap self x h :
  (put self x h).2 =
    match h !! self, byte_signature x with
    | Some f, Ok sig =>
        <[self := set_bit_array f
                    (put_loop sig (_hash_functions f) (_bit_array f)).2]> h
    | _, _ => h
    end.
Proof.
  unfold put. destruct (h !! self) as [f|]; [|done].
  destruct (byte_signature x) as [sig|e]; [|done].
  by destruct (put_loop sig (_hash_functions f) (_bit_array f)).
Qed.

Lemma put_result self x h f :
  well_formed f -> h !! self = Some f ->
  (put self x h).1 =
    match byte_signature x with Ok _ => Ok tt | Err e => Err e end.
Proof.
  intros [_ Hs] Hf. unfold put. rewrite Hf.
  destruct (byte_signature x) as [sig|e]; [|done].
  destruct (put_loop_exact sig (_hash_functions f) (_bit_array f) Hs) as (Hr & _).
  by destruct (put_loop sig (_hash_functions f) (_bit_array f)).
Qed.

Lemma byte_signature_Err item e :
  byte_signature item = Err e <-> hash item = Err e.
Proof.
  destruct (hash item) as [hx|e'] eqn:Hx.
  - rewrite (byte_signature_hashable _ _ Hx). split; intros [=].
  - unfold byte_signature. rewrite Hx. simpl. split; by intros [= ->].
Qed.

End Algebra.

Section Behaviour.
Context `{RT : Runtime}.

Lemma put_heap_dangling a x h : h !! a = None -> (put a x h).2 = h.
Proof. intros H. by rewrite put_heap, H. Qed.

Lemma put_heap_unhashable a x h e :
  byte_signature x = Err e -> (put a x h).2 = h.
Proof. intros H. rewrite put_heap, H. by destruct (h !! a). Qed.

Lemma put_heap_live a x h f s :
  h !! a = Some f -> byte_signature x = Ok s ->
  (put a x h).2 =
    <[a := set_bit_array f (put_loop s (_hash_functions f) (_bit_array f)).2]> h.
Proof. intros Hf Hs. by rewrite put_heap, Hf, Hs. Qed.

Lemma put_keeps_dangling a b y h : h !! a = None -> (put b y h).2 !! a = None.
Proof.
  intros Ha. rewrite put_heap. destruct (h !! b) as [f|] eqn:Hb; [|done].
  destruct (byte_signature y); [|done].
  rewrite lookup_insert_ne; [done|]. intros ->. congruence.
Qed.

Lemma reachable_put self x h : reachable h -> reachable (put self x h).2.
Proof. intros Hr. eapply rtc_r; [exact Hr|apply put_is_step]. Qed.

(** Two [put] calls, on one instance or on two, can be exchanged. *)
Lemma put_swap a x b y h :
  reachable h ->
  (put b y (put a x h).2).2 = (put a x (put b y h).2).2.
Proof.
  intros Hr.
  destruct (byte_signature x) as [sx|ex] eqn:Hx;
    [|by rewrite !(put_heap_unhashable a x _ ex)].
  destruct (byte_signature y) as [sy|ey] eqn:Hy;
    [|by rewrite !(put_heap_unhashable b y _ ey)].
  destruct (h !! a) as [fa|] eqn:Ha.
  2: { rewrite (put_heap_dangling a x h Ha).
       by rewrite (put_heap_dangling a x _ (put_keeps_dangling a b y h Ha)). }
  destruct (h !! b) as [fb|] eqn:Hb.
  2: { rewrite (put_heap_dangling b y h Hb).
       by rewrite (put_heap_dangling b y _ (put_keeps_dangling b a x h Hb)). }
  rewrite (put_heap_live a x h fa sx Ha Hx), (put_heap_live b y h fb sy Hb Hy).
  destruct (decide (a = b)) as [->|Hne].
  - assert (fb = fa) as -> by congruence.
    pose proof (reachable_well_formed h b fa Hr Ha) as [_ Hs].
    erewrite (put_heap_live b y), (put_heap_live b x);
      [|apply lookup_insert_eq|done|apply lookup_insert_eq|done].
    rewrite !insert_insert_eq. cbn [set_bit_array _bit_array _hash_functions
      _expected_insertions _fp_rate]. by rewrite put_loop_comm.
  - erewrite (put_heap_live b y), (put_heap_live a x);
      [|by rewrite lookup_insert_ne|done|by rewrite lookup_insert_ne|done].
    by apply insert_insert_ne.
Qed.

(** What [may_contain] sees when it answers [True]. *)
Lemma may_contain_true_buckets f x hx :
  well_formed f -> hash x = Ok hx ->
  may_contain_of f x = Ok true <->
  forall hasher, hasher ∈ _hash_functions f ->
    _bit_array f !! bucket_index (_bit_array f) (be_bytes 64 hx) hasher
      = Some true.
Proof.
  intros [_ Hs] Hx. unfold may_contain_of.
  rewrite (byte_signature_hashable _ _ Hx). cbn [mbind result_bind].
  destruct (decide (_bit_array f = [])) as [Hb|Hb].
  - destruct Hs as [->|]; [|done]. split; [|done].
    intros _ hasher Hin. by apply elem_of_nil in Hin.
  - rewrite may_contain_loop_nonempty by done. rewrite <- Forall_forall.
    split; [intros [= H]; by apply bool_decide_eq_true_1 in H|].
    intros H. f_equal. by apply bool_decide_eq_true_2.
Qed.

Lemma may_contain_of_answers f x hx :
  well_formed f -> hash x = Ok hx -> exists answer, may_contain_of f x = Ok answer.
Proof.
  intros [_ Hs] Hx. unfold may_contain_of.
  rewrite (byte_signature_hashable _ _ Hx). cbn [mbind result_bind].
  destruct (decide (_bit_array f = [])) as [Hb|Hb].
  - destruct Hs as [->|]; [|done]. by exists true.
  - rewrite may_contain_loop_nonempty by done. eauto.
Qed.

(** X1.  On an instance a program can hold, [put(item)] raises exactly
    when [hash(item)] raises, with that exception; and when it raises no
    bit of any instance has changed. *)
Theorem put_raises_as_hash h self f item :
  reachable h -> h !! self = Some f ->
  (forall hx, hash item = Ok hx -> (put self item h).1 = Ok tt) /\
  (forall e, hash item = Err e -> put self item h = (Err e, h)) /\
  (forall e, (put self item h).1 = Err e ->
     hash item = Err e /\ (put self item h).2 = h).
Proof.
  intros Hr Hf. pose proof (reachable_well_formed h self f Hr Hf) as Hwf.
  pose proof (put_result self item h f Hwf Hf) as Hres.
  split; [|split].
  - intros hx Hx. by rewrite Hres, (byte_signature_hashable _ _ Hx).
  - intros e He%byte_signature_Err. by apply (put_unhashable self item h f).
  - intros e He. rewrite Hres in He.
    destruct (byte_signature item) as [s|e'] eqn:Hs; [done|].
    injection He as ->. split; [by apply byte_signature_Err|].
    by eapply put_heap_unhashable.
Qed.

(** X2.  On an instance a program can hold, [may_contain(item)] -- and
    with it [item in filter] -- raises exactly when [hash(item)] raises,
    and otherwise answers; it never divides by zero or indexes out of
    range. *)
Theorem may_contain_raises_as_hash h self f item :
  reachable h -> h !! self = Some f ->
  (forall hx, hash item = Ok hx ->
     exists answer, may_contain self item h = (Ok answer, h) /\
                    __contains__ self item h = (Ok answer, h)) /\
  (forall e, hash item = Err e ->
     may_contain self item h = (Err e, h) /\
     __contains__ self item h = (Err e, h)).
Proof.
  intros Hr Hf. pose proof (reachable_well_formed h self f Hr Hf) as Hwf.
  unfold __contains__. rewrite (may_contain_live _ _ _ _ Hf). split.
  - intros hx Hx. destruct (may_contain_of_answers f item hx Hwf Hx) as [b ->].
    by exists b.
  - intros e He%byte_signature_Err. unfold may_contain_of. by rewrite He.
Qed.

(** X3.  What [put(x)] does to the receiver: its bit array keeps its
    length and has, afterwards, the 1s it had plus the buckets the hash
    functions select for [x], and nothing else; parameters and hash
    functions are as before. *)
Theorem put_sets_exactly_buckets h self f x hx :
  reachable h -> h !! self = Some f -> hash x = Ok hx ->
  exists bits',
    put self x h = (Ok tt, <[self := set_bit_array f bits']> h) /\
    length bits' = length (_bit_array f) /\
    forall i,
      bits' !! i = Some true <->
      _bit_array f !! i = Some true \/
      exists hasher, hasher ∈ _hash_functions f /\
        i = bucket_index (_bit_array f) (be_bytes 64 hx) hasher.
Proof.
  intros Hr Hf Hx. pose proof (reachable_well_formed h self f Hr Hf) as [_ Hs].
  pose proof (byte_signature_hashable _ _ Hx) as Hsig.
  destruct (put_loop_exact (be_bytes 64 hx) (_hash_functions f)
              (_bit_array f) Hs) as (Hres & Hl & He).
  eexists. split; [|split; [exact Hl|exact He]].
  rewrite (put_live _ _ _ _ _ Hf Hsig). by rewrite Hres.
Qed.

Lemma put_reported_noop h self f x hx :
  well_formed f -> h !! self = Some f -> hash x = Ok hx ->
  may_contain_of f x = Ok true -> put self x h = (Ok tt, h).
Proof.
  intros Hwf Hf Hx Hm. pose proof Hwf as [_ Hs].
  pose proof (byte_signature_hashable _ _ Hx) as Hsig.
  rewrite (put_live _ _ _ _ _ Hf Hsig).
  destruct (put_loop_exact (be_bytes 64 hx) (_hash_functions f)
              (_bit_array f) Hs) as (-> & _).
  rewrite put_loop_idem;
    [|done|exact (proj1 (may_contain_true_buckets f x hx Hwf Hx) Hm)].
  by rewrite set_bit_array_same, insert_id.
Qed.

(** X4.  [put] of an item the filter already reports changes nothing; in
    particular a second [put] of the same item is a no-op. *)
Theorem put_of_reported_item_is_noop h self f x hx :
  reachable h -> h !! self = Some f -> hash x = Ok hx ->
  ((may_contain self x h).1 = Ok true -> put self x h = (Ok tt, h)) /\
  put self x (put self x h).2 = (Ok tt, (put self x h).2).
Proof.
  intros Hr Hf Hx. pose proof (reachable_well_formed h self f Hr Hf) as Hwf.
  split.
  - rewrite (may_contain_live _ _ _ _ Hf). by apply (put_reported_noop h self f x hx).
  - destruct (put_then_found h self f x hx Hwf Hf Hx) as (f1 & -> & Hg & Hm).
    cbn [snd]. apply (put_reported_noop _ self f1 x hx);
      eauto using well_formed_grows. apply lookup_insert_eq.
Qed.

(** X5.  The state a run of [put] calls leaves does not depend on the
    order of the calls. *)
Theorem puts_commute h calls calls' :
  reachable h -> Permutation calls calls' ->
  put_each calls h = put_each calls' h.
Proof.
  intros Hr Hp. revert h Hr.
  induction Hp as [|[a x] l l' _ IH|[a x] [b y] l|l1 l2 l3 _ IH1 _ IH2];
    intros h Hr; simpl.
  - done.
  - apply IH. by apply reachable_put.
  - by rewrite put_swap.
  - by rewrite IH1, IH2.
Qed.

(** X6.  A [True] answer is permanent: once [may_contain(x)] (or
    [x in filter]) has returned [True] on an instance, it returns [True]
    on it after any further calls, whether or not [x] was ever put. *)
Theorem true_answer_is_permanent h h' self x :
  (may_contain self x h).1 = Ok true -> rtc step h h' ->
  may_contain self x h' = (Ok true, h') /\
  __contains__ self x h' = (Ok true, h').
Proof.
  intros Hm Hsteps. unfold __contains__.
  unfold may_contain in Hm. destruct (h !! self) as [f|] eqn:Hf; [|done].
  destruct (steps_grow _ _ _ _ Hsteps Hf) as (f' & Hf' & Hgr).
  rewrite (may_contain_live _ _ _ _ Hf').
  by rewrite (may_contain_of_grows _ _ _ Hgr Hm).
Qed.

(** X7.  Instances never go away, shrink or lose a bit: after any
    further calls an instance is still there with the arguments it was
    built with, the same hash functions, a bit array of the same length,
    and every 1 it had. *)
Theorem instances_only_grow h h' a f :
  h !! a = Some f -> rtc step h h' ->
  exists f',
    h' !! a = Some f' /\
    _expected_insertions f' = _expected_insertions f /\
    _fp_rate f' = _fp_rate f /\
    _hash_functions f' = _hash_functions f /\
    length (_bit_array f') = length (_bit_array f) /\
    forall i, _bit_array f !! i = Some true -> _bit_array f' !! i = Some true.
Proof.
  intros Hf Hsteps.
  destruct (steps_grow _ _ _ _ Hsteps Hf)
    as (f' & Hf' & Hn & Hp & Hh & Hl & Hle).
  exists f'. by repeat split.
Qed.

(** X8.  [expected_fpp()] is fixed at construction: on an instance it
    returns the same float, or raises the same exception, after any
    further calls, and it leaves every instance as it is. *)
Theorem expected_fpp_fixed_at_construction h h' self f :
  h !! self = Some f -> rtc step h h' ->
  expected_fpp self h' = ((expected_fpp self h).1, h') /\
  (expected_fpp self h).2 = h.
Proof.
  intros Hf Hsteps. split; [by eapply expected_fpp_stable|].
  unfold expected_fpp. by rewrite Hf.
Qed.

(** X9.  A freshly constructed filter with at least one hash function
    reports nothing: [may_contain] answers [False] for every hashable
    item. *)
Theorem fresh_filter_reports_nothing n p h a h' x hx :
  __init__ n p h = (Ok a, h') -> hash x = Ok hx ->
  exists f,
    h' !! a = Some f /\
    (_hash_functions f <> [] -> may_contain a x h' = (Ok false, h')).
Proof.
  intros (f & Hinit & -> & ->)%init_Ok Hx.
  pose proof (init_fields_well_formed _ _ _ Hinit) as [_ Hs].
  apply init_fields_Ok in Hinit as (bits & hs & _ & Hz%make_bit_array_zero & _ & ->).
  eexists. split; [apply lookup_insert_eq|]. simpl in *. intros Hh.
  destruct Hs as [Hs|Hb]; [done|].
  rewrite (may_contain_live _ _ _ _ (lookup_insert_eq _ _ _)).
  unfold may_contain_of. rewrite (byte_signature_hashable _ _ Hx).
  cbn [mbind result_bind _bit_array _hash_functions].
  rewrite may_contain_loop_nonempty by done. do 2 f_equal.
  apply bool_decide_eq_false_2. destruct hs as [|hasher rest]; [done|].
  intros [Hbit _]%Forall_cons. rewrite Hz in Hbit.
  by apply lookup_replicate in Hbit as [? _].
Qed.

(** X10.  A filter without hash functions (a derived [k] of 0, as
    [BloomFilter(10, 0.9)] gets) reports every hashable item, in any
    state, and [put] changes nothing in it. *)
Theorem no_hash_function_reports_everything h self f x hx :
  h !! self = Some f -> _hash_functions f = [] -> hash x = Ok hx ->
  may_contain self x h = (Ok true, h) /\ put self x h = (Ok tt, h).
Proof.
  intros Hf Hh Hx. pose proof (byte_signature_hashable _ _ Hx) as Hsig. split.
  - rewrite (may_contain_live _ _ _ _ Hf). unfold may_contain_of.
    by rewrite Hsig, Hh.
  - rewrite (put_live _ _ _ _ _ Hf Hsig), Hh. simpl.
    by rewrite set_bit_array_same, insert_id.
Qed.

(** ** Merging *)

Lemma or_bits_idem (a b : list bool) :
  length a = length b -> zip_with orb (zip_with orb a b) b = zip_with orb a b.
Proof.
  intros Hl. assert (Hl' : length (zip_with orb a b) = length b)
    by (rewrite length_zip_with; lia).
  apply bits_ext; [rewrite !length_zip_with; lia|].
  intros i. rewrite !or_bits_true by done. tauto.
Qed.

Lemma or_bits_comm (a b : list bool) :
  length a = length b -> zip_with orb a b = zip_with orb b a.
Proof.
  intros Hl. apply bits_ext; [rewrite !length_zip_with; lia|].
  intros i. rewrite !or_bits_true by done. tauto.
Qed.

Lemma compatible_cases h self f other :
  ~ incompatible h self f other ->
  exists o g, other = PyObj o /\ h !! o = Some g /\ self <> o /\
    length (_hash_functions f) = length (_hash_functions g) /\
    length (_bit_array f) = length (_bit_array g).
Proof.
  intros Hc. apply is_compatible_true.
  destruct (_is_compatible h self f other) eqn:E; [done|].
  by apply is_compatible_false in E.
Qed.

(** X11.  [put_all] is idempotent: merging the same filter a second
    time returns and changes nothing. *)
Theorem put_all_idempotent h self f other :
  h !! self = Some f -> ~ incompatible h self f other ->
  put_all self other (put_all self other h).2 =
    (Ok tt, (put_all self other h).2).
Proof.
  intros Hf (o & g & -> & Hg & Hne & Hk & Hm)%compatible_cases.
  rewrite (put_all_compatible h self f o g) by done. cbn [snd].
  set (f1 := set_bit_array f (zip_with orb (_bit_array f) (_bit_array g))).
  assert (Hl : length (_bit_array f1) = length (_bit_array g))
    by (simpl; rewrite length_zip_with; lia).
  rewrite (put_all_compatible _ self f1 o g);
    [|apply lookup_insert_eq|by rewrite lookup_insert_ne|done|done|done].
  f_equal. rewrite insert_insert_eq. unfold f1.
  cbn [set_bit_array _bit_array _expected_insertions _fp_rate _hash_functions].
  by rewrite or_bits_idem.
Qed.

(** X12.  Compatibility is symmetric, and so is the merge: when [a] and
    [b] are compatible, [a.put_all(b)] and [b.put_all(a)] both return, and
    the bit array the first leaves in [a] is the one the second leaves in
    [b]. *)
Theorem put_all_symmetric h a b f g :
  h !! a = Some f -> h !! b = Some g ->
  _is_compatible h a f (PyObj b) = _is_compatible h b g (PyObj a) /\
  (~ incompatible h a f (PyObj b) ->
   exists bits,
     put_all a (PyObj b) h = (Ok tt, <[a := set_bit_array f bits]> h) /\
     put_all b (PyObj a) h = (Ok tt, <[b := set_bit_array g bits]> h)).
Proof.
  intros Hf Hg. split.
  - destruct (_is_compatible h a f (PyObj b)) eqn:E1,
      (_is_compatible h b g (PyObj a)) eqn:E2; try done.
    + apply is_compatible_true in E1 as (o & g' & [= <-] & Hg' & Hne & Hk & Hm).
      assert (g' = g) as -> by congruence.
      rewrite <- E2. symmetry. apply is_compatible_true.
      exists a, f. by repeat split.
    + apply is_compatible_true in E2 as (o & f' & [= <-] & Hf' & Hne & Hk & Hm).
      assert (f' = f) as -> by congruence.
      rewrite <- E1. apply is_compatible_true.
      exists b, g. by repeat split.
  - intros (o & g' & [= <-] & Hg' & Hne & Hk & Hm)%compatible_cases.
    assert (g' = g) as -> by congruence.
    exists (zip_with orb (_bit_array f) (_bit_array g)).
    split; [by apply put_all_compatible|].
    rewrite (or_bits_comm (_bit_array f)) by done.
    by apply put_all_compatible.
Qed.

(** X13.  Merging and inserting commute: merging [other] into the
    receiver after [other] has been put [x] leaves the receiver as merging
    first and then putting [x] into the receiver does. *)
Theorem put_all_after_put h self o f g x :
  reachable h -> h !! self = Some f -> h !! o = Some g ->
  ~ incompatible h self f (PyObj o) ->
  (put_all self (PyObj o) (put o x h).2).2 !! self =
  (put self x (put_all self (PyObj o) h).2).2 !! self.
Proof.
  intros Hr Hf Hg Hc.
  destruct (compatible_cases _ _ _ _ Hc)
    as (o' & g' & [= <-] & Hg' & Hne & Hk & Hm).
  assert (g' = g) as -> by congruence.
  destruct (byte_signature x) as [s|e] eqn:Hs;
    [|by rewrite !(put_heap_unhashable _ x _ e)].
  pose proof (reachable_well_formed h self f Hr Hf) as Hwf.
  pose proof (reachable_well_formed h o g Hr Hg) as Hwg.
  pose proof (well_formed_same_hashers f g Hwf Hwg Hk) as Hh.
  destruct Hwf as [_ Hsf]. destruct Hwg as [_ Hsg].
  set (bg := _bit_array g) in *. set (bf := _bit_array f) in *.
  set (hs := _hash_functions f) in *.
  destruct (put_loop_exact s hs bg) as (_ & Hlg & Heg); [by rewrite Hh|].
  assert (Hlo : length (zip_with orb bf bg) = length bf)
    by (rewrite length_zip_with; lia).
  destruct (put_loop_exact s hs (zip_with orb bf bg)) as (_ & Hlm & Hem).
  { destruct Hsf as [|Hsf]; [by left|right].
    intros E. rewrite E in Hlo. by destruct bf. }
  rewrite (put_heap_live o x h g s Hg Hs). fold bg. rewrite <- Hh. fold hs.
  rewrite (put_all_compatible _ self f o
             (set_bit_array g (put_loop s hs bg).2));
    [|by rewrite lookup_insert_ne|apply lookup_insert_eq|done
     |simpl; by rewrite <- Hh|simpl; fold bf; congruence].
  rewrite (put_all_compatible h self f o g) by done. cbn [snd].
  erewrite (put_heap_live self x);
    [|apply lookup_insert_eq|exact Hs].
  rewrite !lookup_insert_eq. f_equal.
  cbn [set_bit_array _bit_array _expected_insertions _fp_rate _hash_functions].
  fold bf bg hs. f_equal.
  apply bits_ext; [rewrite length_zip_with; lia|].
  intros i. rewrite or_bits_true by congruence. rewrite Heg, Hem.
  rewrite or_bits_true by done.
  setoid_rewrite (bucket_index_length bf (zip_with orb bf bg)); [|done].
  setoid_rewrite (bucket_index_length bf bg); [|done]. tauto.
Qed.

(** ** What every instance looks like *)

(** X14.  Every instance a program can hold has at most 30 hash
    functions, they are the seeds 0, 1, ... in pool order, and an instance
    without bits has none (so no call divides by zero). *)
Theorem instance_invariant h a f :
  reachable h -> h !! a = Some f ->
  _hash_functions f = seqZ 0 (len (_hash_functions f)) /\
  len (_hash_functions f) <= 30 /\
  (_hash_functions f = [] \/ _bit_array f <> []).
Proof.
  intros Hr Hf. destruct (reachable_well_formed h a f Hr Hf) as [Hp Hs].
  assert (Hle : (length (_hash_functions f) <= 30)%nat).
  { rewrite Hp, length_take.
    replace (length _hash_fn_pool) with 30%nat by reflexivity. lia. }
  split; [|split; [unfold len; lia|done]].
  rewrite Hp at 1. unfold _hash_fn_pool, len.
  set (k := length (_hash_functions f)) in *.
  replace 30 with (Z.of_nat k + (30 - Z.of_nat k)) by lia.
  rewrite seqZ_app by lia. apply take_app_length'.
  rewrite length_seqZ. lia.
Qed.

(** X15.  No [int] (or [bool]) is accepted as [fp_rate]: no integer lies
    strictly between 0 and 1, so with a valid [expected_insertions] the
    constructor raises [ValueError] and creates nothing. *)
Theorem integer_rate_refused n p h :
  isinstance_int p = true ->
  (isinstance_int n = true -> 0 < int_value n ->
   __init__ n p h = (Err ValueError, h)) /\
  exists e, __init__ n p h = (Err e, h) /\ (e = TypeError \/ e = ValueError).
Proof.
  intros Hp.
  assert (Hc : isinstance_int n = true -> 0 < int_value n ->
               check_arguments n p = Err ValueError).
  { intros Hn Hpos. unfold check_arguments. rewrite Hn. simpl.
    rewrite (le_int_int n 0 Hn). simpl.
    destruct (Z.leb_spec (int_value n) 0); [lia|].
    assert (isinstance_Number p = true) as -> by (by destruct p).
    assert (isinstance_complex p = false) as -> by (by destruct p).
    simpl. rewrite (le_int_int p 0 Hp). simpl.
    destruct (Z.leb_spec (int_value p) 0); [done|].
    assert (ge_int p 1 = Ok true) as ->; [|done].
    destruct p; try done; simpl in *; f_equal; apply Z.leb_le; lia. }
  assert (He : exists e, check_arguments n p = Err e /\
                 (e = TypeError \/ e = ValueError)).
  { destruct (isinstance_int n) eqn:Hn;
      [|unfold check_arguments; rewrite Hn; eauto].
    destruct (Z.lt_ge_cases 0 (int_value n)); [eauto|].
    apply check_arguments_refused. right; left. lia. }
  split.
  - intros Hn Hpos. unfold __init__, init_fields. by rewrite Hc.
  - destruct He as (e & He & Hte). exists e. split; [|done].
    unfold __init__, init_fields. by rewrite He.
Qed.

(** X16.  Merging with an empty filter: merging a compatible filter that
    holds no 1 into the receiver returns and changes nothing, and merging
    the receiver into that filter gives it the receiver's bit array. *)
Theorem put_all_with_empty h self o f g :
  h !! self = Some f -> h !! o = Some g ->
  ~ incompatible h self f (PyObj o) ->
  _bit_array g = replicate (length (_bit_array g)) false ->
  put_all self (PyObj o) h = (Ok tt, h) /\
  put_all o (PyObj self) h = (Ok tt, <[o := set_bit_array g (_bit_array f)]> h).
Proof.
  intros Hf Hg (o' & g' & [= <-] & Hg' & Hne & Hk & Hm)%compatible_cases Hz.
  assert (g' = g) as -> by congruence.
  assert (Hor : zip_with orb (_bit_array f) (_bit_array g) = _bit_array f).
  { apply bits_ext; [rewrite length_zip_with; lia|]. intros i.
    rewrite or_bits_true by done. split; [|by left].
    intros [H|H]; [done|]. rewrite Hz in H.
    by apply lookup_replicate in H as [? _]. }
  split.
  - rewrite (put_all_compatible h self f o g) by done.
    by rewrite Hor, set_bit_array_same, insert_id.
  - rewrite (put_all_compatible h o g self f) by done.
    by rewrite or_bits_comm, Hor.
Qed.

(** X17.  On an instance a program can hold, [may_contain(x)] answers
    [True] exactly when every bucket the hash functions select for [x]
    holds a 1. *)
Theorem may_contain_iff_buckets_set h self f x hx :
  reachable h -> h !! self = Some f -> hash x = Ok hx ->
  exists answer,
    may_contain self x h = (Ok answer, h) /\
    (answer = true <->
     forall hasher, hasher ∈ _hash_functions f ->
       _bit_array f !! bucket_index (_bit_array f) (be_bytes 64 hx) hasher
         = Some true).
Proof.
  intros Hr Hf Hx. pose proof (reachable_well_formed h self f Hr Hf) as Hwf.
  destruct (may_contain_of_answers f x hx Hwf Hx) as [answer Ha].
  exists answer. rewrite (may_contain_live _ _ _ _ Hf), Ha. split; [done|].
  rewrite <- (may_contain_true_buckets f x hx Hwf Hx), Ha.
  split; [by intros ->|by intros [= ->]].
Qed.

End Behaviour.

Section MoreOnCPython.
#[local] Existing Instance CPython.runtime.

Lemma later_steps : rtc step CPython.inserted CPython.later.
Proof. apply rtc_once, put_is_step. Qed.

Lemma put_raises_as_hash_witness :
  reachable CPython.inserted /\ CPython.inserted !! 0%nat = Some CPython.filter_a /\
  (forall hx, hash (PyList []) = Ok hx ->
     (put 0%nat (PyList []) CPython.inserted).1 = Ok tt) /\
  (forall e, hash (PyList []) = Err e ->
     put 0%nat (PyList []) CPython.inserted = (Err e, CPython.inserted)) /\
  (forall e, (put 0%nat (PyList []) CPython.inserted).1 = Err e ->
     hash (PyList []) = Err e /\ (put 0%nat (PyList []) CPython.inserted).2 = CPython.inserted).
Proof.
  split; [apply reachable_inserted|]. split; [by vm_compute|].
  apply (put_raises_as_hash CPython.inserted 0%nat CPython.filter_a (PyList []));
    [apply reachable_inserted|by vm_compute].
Defined.

Lemma may_contain_raises_as_hash_witness :
  reachable CPython.inserted /\ CPython.inserted !! 0%nat = Some CPython.filter_a /\
  (forall hx, hash (PyStr "world") = Ok hx ->
     exists answer,
       may_contain 0%nat (PyStr "world") CPython.inserted = (Ok answer, CPython.inserted) /\
       __contains__ 0%nat (PyStr "world") CPython.inserted = (Ok answer, CPython.inserted)) /\
  (forall e, hash (PyStr "world") = Err e ->
     may_contain 0%nat (PyStr "world") CPython.inserted = (Err e, CPython.inserted) /\
     __contains__ 0%nat (PyStr "world") CPython.inserted = (Err e, CPython.inserted)).
Proof.
  split; [apply reachable_inserted|]. split; [by vm_compute|].
  apply (may_contain_raises_as_hash CPython.inserted 0%nat CPython.filter_a (PyStr "world"));
    [apply reachable_inserted|by vm_compute].
Defined.

Lemma put_sets_exactly_buckets_witness :
  reachable CPython.inserted /\ CPython.inserted !! 1%nat = Some CPython.filter_b /\
  hash (PyInt 7) = Ok 7 /\
  exists bits',
    put 1%nat (PyInt 7) CPython.inserted =
      (Ok tt, <[1%nat := set_bit_array CPython.filter_b bits']> CPython.inserted) /\
    length bits' = length (_bit_array CPython.filter_b) /\
    forall i,
      bits' !! i = Some true <->
      _bit_array CPython.filter_b !! i = Some true \/
      exists hasher, hasher ∈ _hash_functions CPython.filter_b /\
        i = bucket_index (_bit_array CPython.filter_b) (be_bytes 64 7) hasher.
Proof.
  split; [apply reachable_inserted|]. split; [by vm_compute|].
  split; [by vm_compute|].
  apply (put_sets_exactly_buckets CPython.inserted 1%nat CPython.filter_b (PyInt 7) 7);
    [apply reachable_inserted|by vm_compute|by vm_compute].
Defined.

Lemma put_of_reported_item_is_noop_witness :
  reachable CPython.inserted /\ CPython.inserted !! 0%nat = Some CPython.filter_a /\
  hash (PyStr "hello") = Ok (-7293728527455442811) /\
  ((may_contain 0%nat (PyStr "hello") CPython.inserted).1 = Ok true ->
   put 0%nat (PyStr "hello") CPython.inserted = (Ok tt, CPython.inserted)) /\
  put 0%nat (PyStr "hello") (put 0%nat (PyStr "hello") CPython.inserted).2 =
    (Ok tt, (put 0%nat (PyStr "hello") CPython.inserted).2).
Proof.
  split; [apply reachable_inserted|]. split; [by vm_compute|].
  split; [by vm_compute|].
  apply (put_of_reported_item_is_noop CPython.inserted 0%nat CPython.filter_a (PyStr "hello")
           (-7293728527455442811));
    [apply reachable_inserted|by vm_compute|by vm_compute].
Defined.

Lemma puts_commute_witness :
  let calls := [(0%nat, PyInt 1); (1%nat, PyStr "hello"); (0%nat, PyInt 2)] in
  let calls' := [(1%nat, PyStr "hello"); (0%nat, PyInt 1); (0%nat, PyInt 2)] in
  reachable CPython.inserted /\ Permutation calls calls' /\
  put_each calls CPython.inserted = put_each calls' CPython.inserted.
Proof.
  intros calls calls'. split; [apply reachable_inserted|].
  split; [apply perm_swap|].
  apply (puts_commute CPython.inserted calls calls');
    [apply reachable_inserted|apply perm_swap].
Defined.

Lemma true_answer_is_permanent_witness :
  (may_contain 0%nat (PyStr "hello") CPython.inserted).1 = Ok true /\
  rtc step CPython.inserted CPython.later /\
  may_contain 0%nat (PyStr "hello") CPython.later = (Ok true, CPython.later) /\
  __contains__ 0%nat (PyStr "hello") CPython.later = (Ok true, CPython.later).
Proof.
  split; [by vm_compute|]. split; [apply later_steps|].
  apply (true_answer_is_permanent CPython.inserted CPython.later 0%nat (PyStr "hello"));
    [by vm_compute|apply later_steps].
Defined.

Lemma instances_only_grow_witness :
  CPython.inserted !! 0%nat = Some CPython.filter_a /\ rtc step CPython.inserted CPython.later /\
  exists f',
    CPython.later !! 0%nat = Some f' /\
    _expected_insertions f' = _expected_insertions CPython.filter_a /\
    _fp_rate f' = _fp_rate CPython.filter_a /\
    _hash_functions f' = _hash_functions CPython.filter_a /\
    length (_bit_array f') = length (_bit_array CPython.filter_a) /\
    forall i, _bit_array CPython.filter_a !! i = Some true ->
              _bit_array f' !! i = Some true.
Proof.
  split; [by vm_compute|]. split; [apply later_steps|].
  apply (instances_only_grow CPython.inserted CPython.later 0%nat CPython.filter_a);
    [by vm_compute|apply later_steps].
Defined.

Lemma expected_fpp_fixed_at_construction_witness :
  CPython.inserted !! 0%nat = Some CPython.filter_a /\ rtc step CPython.inserted CPython.later /\
  expected_fpp 0%nat CPython.later = ((expected_fpp 0%nat CPython.inserted).1, CPython.later) /\
  (expected_fpp 0%nat CPython.inserted).2 = CPython.inserted.
Proof.
  split; [by vm_compute|]. split; [apply later_steps|].
  apply (expected_fpp_fixed_at_construction CPython.inserted CPython.later 0%nat CPython.filter_a);
    [by vm_compute|apply later_steps].
Defined.

Lemma fresh_filter_reports_nothing_witness :
  __init__ (PyInt 1) (PyFloat CPython.f_0_9) ∅ = (Ok 0%nat, CPython.one_bit) /\
  hash (PyStr "hello") = Ok (-7293728527455442811) /\
  exists f,
    CPython.one_bit !! 0%nat = Some f /\
    (_hash_functions f <> [] ->
     may_contain 0%nat (PyStr "hello") CPython.one_bit = (Ok false, CPython.one_bit)).
Proof.
  split; [by vm_compute|]. split; [by vm_compute|].
  apply (fresh_filter_reports_nothing (PyInt 1) (PyFloat CPython.f_0_9) ∅ 0%nat
           CPython.one_bit (PyStr "hello") (-7293728527455442811)); by vm_compute.
Defined.

Lemma no_hash_function_reports_everything_witness :
  CPython.no_hashers !! 0%nat =
    Some (MkBloomFilter (PyInt 10) (PyFloat CPython.f_0_9) [false; false; false] []) /\
  hash (PyStr "hello") = Ok (-7293728527455442811) /\
  may_contain 0%nat (PyStr "hello") CPython.no_hashers = (Ok true, CPython.no_hashers) /\
  put 0%nat (PyStr "hello") CPython.no_hashers = (Ok tt, CPython.no_hashers).
Proof.
  split; [by vm_compute|]. split; [by vm_compute|].
  apply (no_hash_function_reports_everything CPython.no_hashers 0%nat
           (MkBloomFilter (PyInt 10) (PyFloat CPython.f_0_9) [false; false; false] [])
           (PyStr "hello") (-7293728527455442811)); by vm_compute.
Defined.

Lemma put_all_idempotent_witness :
  CPython.inserted !! 1%nat = Some CPython.filter_b /\
  ~ incompatible CPython.inserted 1%nat CPython.filter_b (PyObj 0%nat) /\
  put_all 1%nat (PyObj 0%nat) (put_all 1%nat (PyObj 0%nat) CPython.inserted).2 =
    (Ok tt, (put_all 1%nat (PyObj 0%nat) CPython.inserted).2).
Proof.
  split; [by vm_compute|]. split; [apply compatible_b_a|].
  apply (put_all_idempotent CPython.inserted 1%nat CPython.filter_b (PyObj 0%nat));
    [by vm_compute|apply compatible_b_a].
Defined.

Lemma put_all_symmetric_witness :
  CPython.inserted !! 1%nat = Some CPython.filter_b /\ CPython.inserted !! 0%nat = Some CPython.filter_a /\
  _is_compatible CPython.inserted 1%nat CPython.filter_b (PyObj 0%nat) =
    _is_compatible CPython.inserted 0%nat CPython.filter_a (PyObj 1%nat) /\
  (~ incompatible CPython.inserted 1%nat CPython.filter_b (PyObj 0%nat) ->
   exists bits,
     put_all 1%nat (PyObj 0%nat) CPython.inserted =
       (Ok tt, <[1%nat := set_bit_array CPython.filter_b bits]> CPython.inserted) /\
     put_all 0%nat (PyObj 1%nat) CPython.inserted =
       (Ok tt, <[0%nat := set_bit_array CPython.filter_a bits]> CPython.inserted)).
Proof.
  split; [by vm_compute|]. split; [by vm_compute|].
  apply (put_all_symmetric CPython.inserted 1%nat 0%nat CPython.filter_b CPython.filter_a);
    by vm_compute.
Defined.

Lemma put_all_after_put_witness :
  reachable CPython.inserted /\ CPython.inserted !! 1%nat = Some CPython.filter_b /\
  CPython.inserted !! 0%nat = Some CPython.filter_a /\
  ~ incompatible CPython.inserted 1%nat CPython.filter_b (PyObj 0%nat) /\
  (put_all 1%nat (PyObj 0%nat) (put 0%nat (PyInt 3) CPython.inserted).2).2 !! 1%nat =
  (put 1%nat (PyInt 3) (put_all 1%nat (PyObj 0%nat) CPython.inserted).2).2 !! 1%nat.
Proof.
  split; [apply reachable_inserted|]. split; [by vm_compute|].
  split; [by vm_compute|]. split; [apply compatible_b_a|].
  apply (put_all_after_put CPython.inserted 1%nat 0%nat CPython.filter_b CPython.filter_a (PyInt 3));
    [apply reachable_inserted|by vm_compute|by vm_compute|apply compatible_b_a].
Defined.

Lemma instance_invariant_witness :
  reachable CPython.inserted /\ CPython.inserted !! 2%nat <> None /\
  exists f, CPython.inserted !! 2%nat = Some f /\
    _hash_functions f = seqZ 0 (len (_hash_functions f)) /\
    len (_hash_functions f) <= 30 /\
    (_hash_functions f = [] \/ _bit_array f <> []).
Proof.
  split; [apply reachable_inserted|]. split; [by vm_compute|].
  eexists. split; [by vm_compute|].
  eapply (instance_invariant CPython.inserted 2%nat);
    [apply reachable_inserted|by vm_compute].
Defined.

Lemma integer_rate_refused_witness :
  isinstance_int (PyInt 100) = true /\
  (isinstance_int (PyInt 10000) = true -> 0 < int_value (PyInt 10000) ->
   __init__ (PyInt 10000) (PyInt 100) ∅ = (Err ValueError, ∅)) /\
  exists e, __init__ (PyInt 10000) (PyInt 100) ∅ = (Err e, ∅) /\
            (e = TypeError \/ e = ValueError).
Proof.
  split; [done|].
  by apply (integer_rate_refused (PyInt 10000) (PyInt 100) ∅).
Defined.

Lemma put_all_with_empty_witness :
  CPython.inserted !! 0%nat = Some CPython.filter_a /\ CPython.inserted !! 1%nat = Some CPython.filter_b /\
  ~ incompatible CPython.inserted 0%nat CPython.filter_a (PyObj 1%nat) /\
  _bit_array CPython.filter_b = replicate (length (_bit_array CPython.filter_b)) false /\
  put_all 0%nat (PyObj 1%nat) CPython.inserted = (Ok tt, CPython.inserted) /\
  put_all 1%nat (PyObj 0%nat) CPython.inserted =
    (Ok tt, <[1%nat := set_bit_array CPython.filter_b (_bit_array CPython.filter_a)]> CPython.inserted).
Proof.
  assert (Hc : ~ incompatible CPython.inserted 0%nat CPython.filter_a (PyObj 1%nat)).
  { intros H%is_compatible_false. by vm_compute in H. }
  split; [by vm_compute|]. split; [by vm_compute|]. split; [exact Hc|].
  split; [by vm_compute|].
  apply (put_all_with_empty CPython.inserted 0%nat 1%nat CPython.filter_a CPython.filter_b);
    [by vm_compute|by vm_compute|exact Hc|by vm_compute].
Defined.

Lemma may_contain_iff_buckets_set_witness :
  reachable CPython.inserted /\ CPython.inserted !! 0%nat = Some CPython.filter_a /\
  hash (PyStr "world") = Ok (-2281572781517428418) /\
  exists answer,
    may_contain 0%nat (PyStr "world") CPython.inserted = (Ok answer, CPython.inserted) /\
    (answer = true <->
     forall hasher, hasher ∈ _hash_functions CPython.filter_a ->
       _bit_array CPython.filter_a
         !! bucket_index (_bit_array CPython.filter_a)
              (be_bytes 64 (-2281572781517428418)) hasher = Some true).
Proof.
  split; [apply reachable_inserted|]. split; [by vm_compute|].
  split; [by vm_compute|].
  apply (may_contain_iff_buckets_set CPython.inserted 0%nat CPython.filter_a (PyStr "world")
           (-2281572781517428418));
    [apply reachable_inserted|by vm_compute|by vm_compute].
Defined.

End MoreOnCPython.

Section Construction.
Context `{RT : Runtime}.

(** X19.  Two filters built with the same arguments, whatever calls come
    between the two constructions, are distinct instances with equal
    sizes, and stay mergeable for life: after any further calls, [put_all]
    of one into the other returns. *)
Theorem same_arguments_mergeable n p h a h1 h1' b h2 h3 :
  __init__ n p h = (Ok a, h1) -> rtc step h1 h1' ->
  __init__ n p h1' = (Ok b, h2) -> rtc step h2 h3 ->
  a <> b /\
  (put_all a (PyObj b) h3).1 = Ok tt /\ (put_all b (PyObj a) h3).1 = Ok tt.
Proof.
  intros (f & Hf & -> & ->)%init_Ok Hbetween
         (f' & Hf' & -> & ->)%init_Ok Hsteps.
  assert (f' = f) as -> by congruence.
  set (a := fresh (dom h)) in *. set (b := fresh (dom h1')) in *.
  destruct (steps_grow _ _ a f Hbetween)
    as (fa' & Hfa' & _ & _ & Hha' & Hla' & _); [apply lookup_insert_eq|].
  assert (Hne : a <> b).
  { intros E. pose proof (fresh_addr_free h1') as Hfree.
    fold b in Hfree. rewrite <- E in Hfree. congruence. }
  assert (Ha : <[b := f]> h1' !! a = Some fa')
    by (by rewrite lookup_insert_ne).
  assert (Hb : <[b := f]> h1' !! b = Some f) by apply lookup_insert_eq.
  destruct (steps_grow _ _ _ _ Hsteps Ha) as (fa & Hfa & _ & _ & Hha & Hla & _).
  destruct (steps_grow _ _ _ _ Hsteps Hb) as (fb & Hfb & _ & _ & Hhb & Hlb & _).
  split; [done|].
  rewrite (put_all_compatible h3 a fa b fb), (put_all_compatible h3 b fb a fa);
    done || congruence.
Qed.

(** ** The shape of the signature *)

Lemma be_bytes_app n m z :
  be_bytes (n + m) z = be_bytes n (z / 256 ^ Z.of_nat m) ++ be_bytes m z.
Proof.
  revert z. induction m as [|m IH]; intros z.
  - rewrite Nat.add_0_r, Z.div_1_r. by rewrite app_nil_r.
  - rewrite Nat.add_succ_r.
    change (be_bytes (S (n + m)) z)
      with (be_bytes (n + m) (z / 256) ++ [byte_of_Z z]).
    change (be_bytes (S m) z) with (be_bytes m (z / 256) ++ [byte_of_Z z]).
    rewrite IH, Z.div_div by lia. rewrite <- Z.pow_succ_r by lia.
    by rewrite <- Nat2Z.inj_succ, app_assoc.
Qed.

(** X20.  The byte signature of a hashable item is 64 bytes of which
    only the last 8 carry the hash: the first 56 are the sign extension,
    all 0x00 for a hash that is not negative and all 0xff for a negative
    one. *)
Theorem signature_shape x hx :
  hash x = Ok hx ->
  byte_signature x =
    Ok (replicate 56 (if hx <? 0 then Byte.xff else Byte.x00) ++ be_bytes 8 hx) /\
  length (be_bytes 8 hx) = 8%nat.
Proof.
  intros Hx. pose proof (hash_range _ _ Hx) as Hr.
  rewrite (byte_signature_hashable _ _ Hx).
  assert (Hlen : forall n z, length (be_bytes n z) = n).
  { induction n as [|n IH]; intros z; [done|].
    change (be_bytes (S n) z) with (be_bytes n (z / 256) ++ [byte_of_Z z]).
    rewrite length_app, IH. simpl. lia. }
  split; [|apply Hlen]. f_equal.
  change 64%nat with (56 + 8)%nat. rewrite (be_bytes_app 56 8 hx). f_equal.
  change (256 ^ Z.of_nat 8) with (2 ^ 64).
  destruct (Z.ltb_spec hx 0).
  - replace (hx / 2 ^ 64) with (-1); [by vm_compute|].
    apply Z.div_unique with (r := hx + 2 ^ 64); lia.
  - rewrite Z.div_small by lia. by vm_compute.
Qed.

End Construction.

Section ConstructionOnCPython.
#[local] Existing Instance CPython.runtime.

Lemma same_arguments_mergeable_witness :
  let h1 := (__init__ (PyInt 10) (PyFloat CPython.f_0_01) ∅).2 in
  let h1' := (put 0%nat (PyStr "hello") h1).2 in
  let h2 := (__init__ (PyInt 10) (PyFloat CPython.f_0_01) h1').2 in
  let h3 := (put 1%nat (PyStr "world") h2).2 in
  __init__ (PyInt 10) (PyFloat CPython.f_0_01) ∅ = (Ok 0%nat, h1) /\
  rtc step h1 h1' /\
  __init__ (PyInt 10) (PyFloat CPython.f_0_01) h1' = (Ok 1%nat, h2) /\
  rtc step h2 h3 /\
  0%nat <> 1%nat /\
  (put_all 0%nat (PyObj 1%nat) h3).1 = Ok tt /\
  (put_all 1%nat (PyObj 0%nat) h3).1 = Ok tt.
Proof.
  intros h1 h1' h2 h3.
  assert (Hb : rtc step h1 h1') by apply rtc_once, put_is_step.
  assert (Hs : rtc step h2 h3) by apply rtc_once, put_is_step.
  split; [by vm_compute|]. split; [exact Hb|].
  split; [by vm_compute|]. split; [exact Hs|].
  apply (same_arguments_mergeable (PyInt 10) (PyFloat CPython.f_0_01)
           ∅ 0%nat h1 h1' 1%nat h2 h3);
    [by vm_compute|exact Hb|by vm_compute|exact Hs].
Defined.

Lemma signature_shape_witness :
  hash (PyInt (-2)) = Ok (-2) /\
  byte_signature (PyInt (-2)) =
    Ok (replicate 56 (if -2 <? 0 then Byte.xff else Byte.x00) ++
        be_bytes 8 (-2)) /\
  length (be_bytes 8 (-2)) = 8%nat.
Proof.
  split; [by vm_compute|].
  apply (signature_shape (PyInt (-2)) (-2)). by vm_compute.
Defined.

End ConstructionOnCPython.
